(** * ec: a single-header entity/component store (ec.hpp)

    Shallow embedding of [namespace ec] and the properties of its public
    operations [create_entity], [destroy_entity], [add_component],
    [get_component], [remove_component] and [query].

    Modelling conventions.
    - [Entity] is [std::uint32_t]: an [N] whose increment wraps at [2^32].
    - [std::size_t] quantities are sizes and indices of vectors that live in
      memory; they are modelled by [nat] (a vector never reaches [2^64]
      elements, so this arithmetic does not wrap).
    - [std::vector<X>] is [list X]; [resize] is stdpp's [resize]; indexing is
      stdpp's lookup and insert, with every access the C++ standard leaves
      undefined (null pool, index past the end) made explicit as [None].
    - [std::vector<char>] flag arrays only ever hold 0 and 1 and are only
      tested for truth: [list bool].
    - [std::unordered_map<size_t,size_t>] is [gmap N nat].
    - a component type [T] is identified the way the code identifies it, by
      [typeid(T).hash_code()], an [N]; component values are drawn from one
      type [V] whose value-initialised element is [dflt].
    - a [T*] returned to the caller is modelled by the value it points to
      ([None] for [nullptr]). *)

From stdpp Require Import base option list gmap numbers sorting.

Module ec.

Definition Entity := N.
Bind Scope N_scope with Entity.

(** [Entity] arithmetic is modulo [2^32]. *)
Definition Entity_modulus : N := 2 ^ 32.

Inductive Status := OK | ERROR.

Section Store.

Variable V : Type.
Variable dflt : V.

(** ** Pool *)

Record Pool := mkPool {
  data : list V;
  mask : list bool
}.

(** [Pool<T>::ensureSize] *)
Definition ensureSize (n : nat) (p : Pool) : Pool :=
  if length (data p) <? n
  then mkPool (resize n dflt (data p)) (resize n false (mask p))
  else p.

(** ** World *)

Record World := mkWorld {
  alive : list bool;
  nextEntity : Entity;
  pools : list (option Pool);
  typeMap : gmap N nat;
  typeCounter : nat
}.

(** [World::World]: the reserve calls have no observable effect. *)
Definition newWorld : World := mkWorld [] 0%N [] ∅ 0.

Definition with_alive (a : list bool) (w : World) : World :=
  mkWorld a (nextEntity w) (pools w) (typeMap w) (typeCounter w).

Definition with_nextEntity (n : Entity) (w : World) : World :=
  mkWorld (alive w) n (pools w) (typeMap w) (typeCounter w).

Definition with_pools (ps : list (option Pool)) (w : World) : World :=
  mkWorld (alive w) (nextEntity w) ps (typeMap w) (typeCounter w).

(** [World::getTypeId<T>]: get or assign the slot of [T]. *)
Definition getTypeId (T : N) (w : World) : nat * World :=
  match typeMap w !! T with
  | Some id => (id, w)
  | None =>
      let id := typeCounter w in
      let ps := if length (pools w) <=? id
                then resize (S id) None (pools w)
                else pools w in
      (id, mkWorld (alive w) (nextEntity w) ps (<[T:=id]> (typeMap w)) (S id))
  end.

(** The body of the loop over [pools] in [ensureEntity]: null slots are
    skipped. *)
Definition growSlot (n : nat) (bp : option Pool) : option Pool :=
  match bp with
  | Some p => Some (ensureSize n p)
  | None => None
  end.

(** [World::ensureEntity] *)
Definition ensureEntity (e : nat) (w : World) : World :=
  if length (alive w) <=? e
  then mkWorld (resize (S e) false (alive w)) (nextEntity w)
               (growSlot (S e) <$> pools w)
               (typeMap w) (typeCounter w)
  else w.

(** [World::ensurePool<T>]: [pools[typeId]] past the end of [pools] is
    undefined.  The returned reference is modelled by the pool's value; the
    caller stores its writes back at [typeId]. *)
Definition ensurePool (typeId : nat) (w : World) : option (Pool * World) :=
  match pools w !! typeId with
  | None => None
  | Some slot =>
      let pl := ensureSize (length (alive w)) (default (mkPool [] []) slot) in
      Some (pl, with_pools (<[typeId := Some pl]> (pools w)) w)
  end.

(** ** Entities *)

(** [create_entity].  After [ensureEntity id] the index [id] is inside
    [alive], so the store [alive[id] = 1] is always defined. *)
Definition create_entity (w : World) : Entity * World :=
  let id := nextEntity w in
  let w1 := with_nextEntity ((id + 1) mod Entity_modulus)%N w in
  let w2 := ensureEntity (N.to_nat id) w1 in
  (id, with_alive (<[N.to_nat id := true]> (alive w2)) w2).

(** [destroy_entity] *)
Definition destroy_entity (e : Entity) (w : World) : World :=
  if N.to_nat e <? length (alive w)
  then with_alive (<[N.to_nat e := false]> (alive w)) w
  else w.

(** ** Components *)

(** [add_component<T>].  The two stores [pool.data[e]] and [pool.mask[e]]
    are undefined past the end of the respective vector. *)
Definition add_component (T : N) (e : Entity) (comp : V) (w : World)
  : option (Status * World) :=
  match alive w !! N.to_nat e with
  | None | Some false => Some (ERROR, w)
  | Some true =>
      let '(tid, w1) := getTypeId T w in
      '(pool, w2) ← ensurePool tid w1;
      if (N.to_nat e <? length (data pool)) && (N.to_nat e <? length (mask pool))
      then
        let pool' := mkPool (<[N.to_nat e := comp]> (data pool))
                            (<[N.to_nat e := true]> (mask pool)) in
        Some (OK, with_pools (<[tid := Some pool']> (pools w2)) w2)
      else None
  end.

(** [get_component<T>]: [None] inside is [nullptr].  The read
    [pool.mask[e]] is guarded by [data.size()] only, so it is undefined when
    [mask] is the shorter vector. *)
Definition get_component (T : N) (e : Entity) (w : World)
  : option (option V * World) :=
  let '(tid, w1) := getTypeId T w in
  match pools w1 !! tid with
  | None | Some None => Some (None, w1)
  | Some (Some pool) =>
      match data pool !! N.to_nat e with
      | None => Some (None, w1)
      | Some v =>
          match mask pool !! N.to_nat e with
          | None => None
          | Some false => Some (None, w1)
          | Some true => Some (Some v, w1)
          end
      end
  end.

(** [remove_component<T>] *)
Definition remove_component (T : N) (e : Entity) (w : World)
  : Status * World :=
  let '(tid, w1) := getTypeId T w in
  match pools w1 !! tid with
  | None | Some None => (ERROR, w1)
  | Some (Some pool) =>
      if N.to_nat e <? length (mask pool)
      then
        let pool' := mkPool (data pool) (<[N.to_nat e := false]> (mask pool)) in
        (OK, with_pools (<[tid := Some pool']> (pools w1)) w1)
      else (OK, w1)
  end.

(** ** Query *)

(** The braced initialiser [{ w.getTypeId<Ts>()... }], left to right. *)
Fixpoint getTypeIds (Ts : list N) (w : World) : list nat * World :=
  match Ts with
  | [] => ([], w)
  | T :: Ts' =>
      let '(id, w1) := getTypeId T w in
      let '(ids, w2) := getTypeIds Ts' w1 in
      (id :: ids, w2)
  end.

(** One instance of the lambda in the fold expression: dereferences
    [pools[types[idx]]] (undefined when the slot is missing or null), then
    tests the presence flag; [Some None] is [match = false], [Some (Some v)]
    records the pointer to [pl.data[e]]. *)
Definition probe (w : World) (e : nat) (tid : nat) : option (option V) :=
  match pools w !! tid with
  | Some (Some pl) =>
      match mask pl !! e with
      | Some true =>
          match data pl !! e with
          | Some v => Some (Some v)
          | None => None
          end
      | _ => Some None
      end
  | _ => None
  end.

(** The whole fold expression: every pool is dereferenced, also after
    [match] has become false.  [Some None]: no match; [Some (Some ptrs)]:
    all flags set. *)
Fixpoint probes (w : World) (e : nat) (types : list nat)
  : option (option (list V)) :=
  match types with
  | [] => Some (Some [])
  | tid :: rest =>
      p ← probe w e tid;
      ps ← probes w e rest;
      Some (match p, ps with
            | Some v, Some vs => Some (v :: vs)
            | _, _ => None
            end)
  end.

(** One iteration of the entity loop: the visitor calls it makes. *)
Definition visit (w : World) (types : list nat) (e : nat)
  : option (list (Entity * list V)) :=
  match alive w !! e with
  | Some true =>
      m ← probes w e types;
      Some (match m with
            | Some ptrs => [(N.of_nat e, ptrs)]
            | None => []
            end)
  | _ => Some []
  end.

Fixpoint scan (w : World) (types : list nat) (es : list nat)
  : option (list (Entity * list V)) :=
  match es with
  | [] => Some []
  | e :: es' =>
      c ← visit w types e;
      cs ← scan w types es';
      Some (c ++ cs)
  end.

(** [query<Ts...>]: the result is the sequence of visitor invocations
    [f(e, ptrs...)], each with the values the pointers refer to.  The visitor
    only receives pointers to [data] slots, which the loop never reads, so the
    liveness and presence tests do not depend on what it does with them. *)
Definition query (Ts : list N) (w : World)
  : option (list (Entity * list V) * World) :=
  let '(types, w1) := getTypeIds Ts w in
  calls ← scan w1 types (seq 0 (N.to_nat (nextEntity w1)));
  Some (calls, w1).

(** ** Sequences of public operations *)

Inductive Op :=
| OCreate
| ODestroy (e : Entity)
| OAdd (T : N) (e : Entity) (comp : V)
| OGet (T : N) (e : Entity)
| ORemove (T : N) (e : Entity)
| OQuery (Ts : list N).

Inductive Res :=
| RCreate (e : Entity)
| RDestroy
| RAdd (s : Status)
| RGet (p : option V)
| RRemove (s : Status)
| RQuery (calls : list (Entity * list V)).

(** One call of the public API; [None] when the call runs into undefined
    behaviour. *)
Definition exec (o : Op) (w : World) : option (Res * World) :=
  match o with
  | OCreate => let '(e, w1) := create_entity w in Some (RCreate e, w1)
  | ODestroy e => Some (RDestroy, destroy_entity e w)
  | OAdd T e comp => '(s, w1) ← add_component T e comp w; Some (RAdd s, w1)
  | OGet T e => '(p, w1) ← get_component T e w; Some (RGet p, w1)
  | ORemove T e => let '(s, w1) := remove_component T e w in Some (RRemove s, w1)
  | OQuery Ts => '(calls, w1) ← query Ts w; Some (RQuery calls, w1)
  end.

(** A program using the library: the calls in order, with the history of
    calls and their results. *)
Fixpoint run (os : list Op) (w : World) : option (list (Op * Res) * World) :=
  match os with
  | [] => Some ([], w)
  | o :: os' =>
      '(r, w1) ← exec o w;
      '(h, w2) ← run os' w1;
      Some ((o, r) :: h, w2)
  end.

(** Number of [create_entity] calls in a program. *)
Fixpoint creates (os : list Op) : N :=
  match os with
  | [] => 0
  | OCreate :: os' => 1 + creates os'
  | _ :: os' => creates os'
  end%N.

(** ** Observations used in the statements *)

(** The pool of component type [T], if one has been made. *)
Definition pool_of (T : N) (w : World) : option Pool :=
  match typeMap w !! T with
  | Some id =>
      match pools w !! id with
      | Some bp => bp
      | None => None
      end
  | None => None
  end.

(** The value entity index [e] carries for [T]: the presence flag is set. *)
Definition component (T : N) (e : nat) (w : World) : option V :=
  match pool_of T w with
  | Some p =>
      match mask p !! e with
      | Some true => data p !! e
      | _ => None
      end
  | None => None
  end.

Fixpoint components (Ts : list N) (e : nat) (w : World) : option (list V) :=
  match Ts with
  | [] => Some []
  | T :: Ts' =>
      match component T e w, components Ts' e w with
      | Some v, Some vs => Some (v :: vs)
      | _, _ => None
      end
  end.

(** The visitor calls a query for [Ts] is meant to make: the entities of
    the scan range that are Alive and carry every type of [Ts]. *)
Definition matching (Ts : list N) (w : World) : list (Entity * list V) :=
  omap (λ e, match alive w !! e with
             | Some true => pair (N.of_nat e) <$> components Ts e w
             | _ => None
             end)
       (seq 0 (N.to_nat (nextEntity w))).

(** [add_component<T>] has succeeded at some point of the history. *)
Definition added (T : N) (h : list (Op * Res)) : Prop :=
  ∃ e comp, (OAdd T e comp, RAdd OK) ∈ h.

(** ** Representation invariant *)

Record wf (w : World) : Prop := mk_wf {
  wf_pool : ∀ i p, pools w !! i = Some (Some p) →
            length (data p) = length (alive w) ∧
            length (mask p) = length (alive w);
  wf_slots : length (pools w) = typeCounter w;
  wf_tm_lt : ∀ T id, typeMap w !! T = Some id → id < typeCounter w;
  wf_tm_inj : ∀ T1 T2 id,
            typeMap w !! T1 = Some id → typeMap w !! T2 = Some id → T1 = T2
}.

(** The 32-bit entity counter after [c] creations. *)
Definition counted (c : N) (w : World) : Prop :=
  N.of_nat (length (alive w)) = N.min c Entity_modulus ∧
  nextEntity w = (c mod Entity_modulus)%N.

(** ** Definitions used by the proofs and statements *)

(** What the pool of [T] holds after [add_component<T>(w, e, comp)]. *)
Definition stored (T : N) (e : nat) (comp : V) (w : World) : Pool :=
  let n := length (alive w) in
  let p0 := default (mkPool (replicate n dflt) (replicate n false))
                    (pool_of T w) in
  mkPool (<[e := comp]> (data p0)) (<[e := true]> (mask p0)).

(** What it holds after [remove_component<T>(w, e)]. *)
Definition cleared (e : nat) (p : Pool) : Pool :=
  mkPool (data p) (<[e := false]> (mask p)).

Definition store_at (T : N) (q : Pool) (w : World) : World :=
  let w1 := (getTypeId T w).2 in
  with_pools (<[(getTypeId T w).1 := Some q]> (pools w1)) w1.

(** Existing pools stay and do not get shorter. *)
Definition grows (w w' : World) : Prop :=
  ∀ i p, pools w !! i = Some (Some p) →
  ∃ p', pools w' !! i = Some (Some p') ∧
        length (data p) ≤ length (data p') ∧
        length (mask p) ≤ length (mask p').


(** The calls that write the association of [T] and [e]. *)
Definition writes (T : N) (e : Entity) (o : Op) : bool :=
  match o with
  | OAdd T' e' _ | ORemove T' e' => (T' =? T)%N && (e' =? e)%N
  | _ => false
  end.

(** ** Histories read as logs *)

(** The liveness of [e] after one more call of the history: set by a
    [create_entity] that returned [e], cleared by a [destroy_entity] of [e]. *)
Definition live_after (e : Entity) (b : bool) (c : Op * Res) : bool :=
  match c with
  | (OCreate, RCreate e') => if (e' =? e)%N then true else b
  | (ODestroy e', _) => if (e' =? e)%N then false else b
  | _ => b
  end.

Definition last_live (e : Entity) (h : list (Op * Res)) : bool :=
  fold_left (live_after e) h false.



(** ** Callers *)

(** The filling loop of the test [Cache-friendly access pattern]:
    [for each v: e = create_entity(world); add_component<T>(world, e, v)],
    the status of [add_component] being ignored as the test ignores it. *)
Fixpoint populate (T : N) (vs : list V) (w : World) : option World :=
  match vs with
  | [] => Some w
  | v :: vs' =>
      let '(e, w1) := create_entity w in
      '(_, w2) ← add_component T e v w1;
      populate T vs' w2
  end.

(** The second loop of that test: [get_component<T>(world, e)] for each
    index of [idx], collecting what the pointers refer to ([None] for a null
    pointer, which the test would dereference). *)
Fixpoint fetch_all (T : N) (idx : list Entity) (w : World)
  : option (list (option V) * World) :=
  match idx with
  | [] => Some ([], w)
  | e :: idx' =>
      '(p, w1) ← get_component T e w;
      '(ps, w2) ← fetch_all T idx' w1;
      Some (p :: ps, w2)
  end.


(** ** A small program for concrete runs *)

(** Two entities, type 1 on entity 0 with value [a] and type 2 on entity 1
    with value [b]; its history and the World it leaves. *)
Definition two_entities_ops (a b : V) : list Op :=
  [OCreate; OCreate; OAdd 1 0 a; OAdd 2 1 b].

Definition two_entities_hist (a b : V) : list (Op * Res) :=
  [(OCreate, RCreate 0); (OCreate, RCreate 1);
   (OAdd 1 0 a, RAdd OK); (OAdd 2 1 b, RAdd OK)].

Definition two_entities_world (a b : V) : World :=
  mkWorld [true; true] 2
          [Some (mkPool [a; dflt] [true; false]);
           Some (mkPool [dflt; b] [false; true])]
          (<[2%N := 1]> (<[1%N := 0]> ∅)) 2.

(** A World with one Alive entity and no component type ever used. *)
Definition fresh_entity_world : World := (create_entity newWorld).2.

(** ** Pools and the type registry *)

Lemma ensureSize_lengths n p :
  length (data p) = length (mask p) →
  length (data (ensureSize n p)) = length (data p) `max` n ∧
  length (mask (ensureSize n p)) = length (data p) `max` n.
Proof.
  intros Hlen. unfold ensureSize.
  destruct (Nat.ltb_spec (length (data p)) n); simpl.
  - rewrite !length_resize. lia.
  - lia.
Qed.

Lemma ensureSize_id n p : n ≤ length (data p) → ensureSize n p = p.
Proof.
  intros Hle. unfold ensureSize.
  destruct (Nat.ltb_spec (length (data p)) n); [lia | done].
Qed.

Lemma ensureSize_empty n :
  ensureSize n (mkPool [] []) = mkPool (replicate n dflt) (replicate n false).
Proof.
  unfold ensureSize; simpl. by destruct n.
Qed.

Lemma wf_newWorld : wf newWorld.
Proof. split; simpl; [intros [|i] p | done | intros T id | intros T1 T2 id];
  by rewrite ?lookup_empty. Qed.

(** The two ways [getTypeId] returns. *)
Lemma getTypeId_known T id w :
  typeMap w !! T = Some id → getTypeId T w = (id, w).
Proof. intros H. unfold getTypeId. by rewrite H. Qed.

Lemma getTypeId_fresh T w :
  wf w → typeMap w !! T = None →
  getTypeId T w =
    (typeCounter w,
     mkWorld (alive w) (nextEntity w) (pools w ++ [None])
             (<[T:=typeCounter w]> (typeMap w)) (S (typeCounter w))).
Proof.
  intros Hwf H. unfold getTypeId. rewrite H. cbv zeta.
  rewrite <- (wf_slots _ Hwf).
  destruct (Nat.leb_spec (length (pools w)) (length (pools w))); [| lia].
  replace (S (length (pools w))) with (length (pools w) + 1) by lia.
  by rewrite resize_add_eq.
Qed.

Lemma wf_register T w :
  wf w → typeMap w !! T = None →
  wf (mkWorld (alive w) (nextEntity w) (pools w ++ [None])
              (<[T:=typeCounter w]> (typeMap w)) (S (typeCounter w))).
Proof.
  intros Hwf Hnone. split; simpl.
  - intros i p Hi. apply lookup_app_Some in Hi as [Hi | [_ Hi]].
    + by apply (wf_pool _ Hwf i).
    + by apply list_lookup_singleton_Some in Hi as [_ ?].
  - rewrite length_app; simpl. rewrite (wf_slots _ Hwf). lia.
  - intros T' id. rewrite lookup_insert. case_decide; intros Hid.
    + injection Hid as <-. lia.
    + apply (wf_tm_lt _ Hwf) in Hid. lia.
  - intros T1 T2 id. rewrite !lookup_insert.
    repeat case_decide; intros H1 H2; simplify_eq; try done.
    + apply (wf_tm_lt _ Hwf) in H2. lia.
    + apply (wf_tm_lt _ Hwf) in H1. lia.
    + by apply (wf_tm_inj _ Hwf T1 T2 id).
Qed.

Lemma getTypeId_wf T w : wf w → wf (getTypeId T w).2.
Proof.
  intros Hwf. destruct (typeMap w !! T) as [id|] eqn:HT.
  - by rewrite (getTypeId_known _ _ _ HT).
  - rewrite (getTypeId_fresh _ _ Hwf HT). by apply wf_register.
Qed.

Lemma getTypeId_alive T w : alive (getTypeId T w).2 = alive w.
Proof. unfold getTypeId. by destruct (typeMap w !! T). Qed.

Lemma getTypeId_nextEntity T w : nextEntity (getTypeId T w).2 = nextEntity w.
Proof. unfold getTypeId. by destruct (typeMap w !! T). Qed.

Lemma getTypeId_registers T w :
  typeMap (getTypeId T w).2 !! T = Some (getTypeId T w).1.
Proof.
  unfold getTypeId. destruct (typeMap w !! T) eqn:HT; simpl; [done |].
  by rewrite lookup_insert_eq.
Qed.

Lemma getTypeId_pool_of T T' w :
  wf w → pool_of T' (getTypeId T w).2 = pool_of T' w.
Proof.
  intros Hwf. destruct (typeMap w !! T) as [id|] eqn:HT.
  - by rewrite (getTypeId_known _ _ _ HT).
  - rewrite (getTypeId_fresh _ _ Hwf HT). unfold pool_of; simpl.
    rewrite lookup_insert. case_decide as Heq.
    + subst T'. rewrite HT, <- (wf_slots _ Hwf).
      by rewrite lookup_app_r, Nat.sub_diag by lia.
    + destruct (typeMap w !! T') as [id'|] eqn:HT'; [| done].
      apply (wf_tm_lt _ Hwf) in HT'. rewrite <- (wf_slots _ Hwf) in HT'.
      by rewrite lookup_app_l.
Qed.

Lemma getTypeId_component T T' e w :
  wf w → component T' e (getTypeId T w).2 = component T' e w.
Proof. intros Hwf. unfold component. by rewrite getTypeId_pool_of. Qed.

(** Looking a pool up through the slot [getTypeId] returns. *)
Lemma getTypeId_slot T w :
  wf w →
  pools (getTypeId T w).2 !! (getTypeId T w).1 = Some (pool_of T w).
Proof.
  intros Hwf. destruct (typeMap w !! T) as [id|] eqn:HT.
  - rewrite (getTypeId_known _ _ _ HT); simpl. unfold pool_of. rewrite HT.
    apply (wf_tm_lt _ Hwf) in HT. rewrite <- (wf_slots _ Hwf) in HT.
    apply lookup_lt_is_Some in HT as [bp Hbp]. by rewrite Hbp.
  - rewrite (getTypeId_fresh _ _ Hwf HT); simpl. unfold pool_of. rewrite HT.
    rewrite <- (wf_slots _ Hwf). by rewrite lookup_app_r, Nat.sub_diag by lia.
Qed.

(** [getTypeId] neither makes nor drops a pool, in any world. *)
Lemma getTypeId_pools T w i p :
  pools (getTypeId T w).2 !! i = Some (Some p) ↔ pools w !! i = Some (Some p).
Proof.
  unfold getTypeId. destruct (typeMap w !! T); simpl; [done |].
  destruct (Nat.leb_spec (length (pools w)) (typeCounter w)); [| done].
  rewrite resize_ge by lia. split.
  - intros Hi. apply lookup_app_Some in Hi as [Hi | [_ Hi]]; [done |].
    by apply lookup_replicate_1 in Hi as [? _].
  - apply lookup_app_l_Some.
Qed.

Lemma getTypeId_typeMap T w T' id :
  typeMap w !! T' = Some id → typeMap (getTypeId T w).2 !! T' = Some id.
Proof.
  intros H. unfold getTypeId. destruct (typeMap w !! T) eqn:HT; simpl; [done |].
  rewrite lookup_insert_ne; [done | congruence].
Qed.

(** Writing a pool back at the slot of [T]. *)
Lemma wf_store T tid q w :
  wf w → typeMap w !! T = Some tid →
  length (data q) = length (alive w) → length (mask q) = length (alive w) →
  wf (with_pools (<[tid := Some q]> (pools w)) w).
Proof.
  intros Hwf HT Hd Hm. split; simpl.
  - intros i p Hi. destruct (decide (i = tid)) as [Heq | Hne].
    + subst i. apply lookup_lt_Some in Hi as Hlt. rewrite length_insert in Hlt.
      rewrite list_lookup_insert_eq in Hi by done. by simplify_eq.
    + rewrite list_lookup_insert_ne in Hi by done. by apply (wf_pool _ Hwf i).
  - rewrite length_insert. apply (wf_slots _ Hwf).
  - apply (wf_tm_lt _ Hwf).
  - apply (wf_tm_inj _ Hwf).
Qed.

Lemma pool_of_store T T' tid q w :
  wf w → typeMap w !! T = Some tid →
  pool_of T' (with_pools (<[tid := Some q]> (pools w)) w) =
    if decide (T' = T) then Some q else pool_of T' w.
Proof.
  intros Hwf HT. unfold pool_of; simpl. case_decide as Heq.
  - subst T'. rewrite HT. apply (wf_tm_lt _ Hwf) in HT.
    rewrite <- (wf_slots _ Hwf) in HT. by rewrite list_lookup_insert_eq.
  - destruct (typeMap w !! T') as [id'|] eqn:HT'; [| done].
    rewrite list_lookup_insert_ne; [done |].
    intros Hid. subst id'. apply Heq. by apply (wf_tm_inj _ Hwf T' T tid).
Qed.

Lemma wf_with_alive a w :
  length a = length (alive w) → wf w → wf (with_alive a w).
Proof.
  intros Hlen Hwf. split; simpl.
  - intros i p Hi. rewrite Hlen. by apply (wf_pool _ Hwf i).
  - apply (wf_slots _ Hwf).
  - apply (wf_tm_lt _ Hwf).
  - apply (wf_tm_inj _ Hwf).
Qed.

Lemma wf_with_nextEntity n w : wf w → wf (with_nextEntity n w).
Proof. intros Hwf. split; simpl; apply Hwf. Qed.

(** ** Entities *)

Lemma ensureEntity_length e w :
  length (alive (ensureEntity e w)) = length (alive w) `max` S e.
Proof.
  unfold ensureEntity. destruct (Nat.leb_spec (length (alive w)) e); simpl.
  - rewrite length_resize. lia.
  - lia.
Qed.

Lemma ensureEntity_pools e w i :
  wf w →
  pools (ensureEntity e w) !! i =
    growSlot (length (alive w) `max` S e) <$> pools w !! i.
Proof.
  intros Hwf. unfold ensureEntity.
  destruct (Nat.leb_spec (length (alive w)) e); simpl.
  - rewrite list_lookup_fmap. by replace (length (alive w) `max` S e) with (S e) by lia.
  - destruct (pools w !! i) as [[p|]|] eqn:Hi; simpl; try done.
    destruct (wf_pool _ Hwf i p Hi) as [Hd _].
    by rewrite ensureSize_id by lia.
Qed.

Lemma ensureEntity_wf e w : wf w → wf (ensureEntity e w).
Proof.
  intros Hwf. split.
  - intros i p. rewrite ensureEntity_pools, ensureEntity_length by done.
    destruct (pools w !! i) as [[q|]|] eqn:Hi; simpl; try done.
    intros ?; simplify_eq. destruct (wf_pool _ Hwf i q Hi) as [Hd Hm].
    destruct (ensureSize_lengths (length (alive w) `max` S e) q) as [-> ->]; lia.
  - unfold ensureEntity. destruct (_ <=? _); simpl;
      rewrite ?length_fmap; apply (wf_slots _ Hwf).
  - unfold ensureEntity. destruct (_ <=? _); simpl; apply (wf_tm_lt _ Hwf).
  - unfold ensureEntity. destruct (_ <=? _); simpl; apply (wf_tm_inj _ Hwf).
Qed.

Lemma ensureEntity_typeMap e w : typeMap (ensureEntity e w) = typeMap w.
Proof. unfold ensureEntity. by destruct (_ <=? _). Qed.

Lemma ensureEntity_nextEntity e w : nextEntity (ensureEntity e w) = nextEntity w.
Proof. unfold ensureEntity. by destruct (_ <=? _). Qed.

Lemma create_entity_wf w : wf w → wf (create_entity w).2.
Proof.
  intros Hwf. unfold create_entity; simpl.
  apply wf_with_alive; [by rewrite length_insert |].
  by apply ensureEntity_wf, wf_with_nextEntity.
Qed.

Lemma create_entity_typeMap w : typeMap (create_entity w).2 = typeMap w.
Proof. unfold create_entity; simpl. by rewrite ensureEntity_typeMap. Qed.

Lemma create_entity_pools w i :
  wf w →
  pools (create_entity w).2 !! i =
    growSlot (length (alive w) `max` S (N.to_nat (nextEntity w))) <$> pools w !! i.
Proof.
  intros Hwf. unfold create_entity; simpl.
  by rewrite ensureEntity_pools by by apply wf_with_nextEntity.
Qed.

Lemma create_entity_alive w :
  alive (create_entity w).2 =
    <[N.to_nat (nextEntity w) := true]>
      (if length (alive w) <=? N.to_nat (nextEntity w)
       then resize (S (N.to_nat (nextEntity w))) false (alive w)
       else alive w).
Proof.
  unfold create_entity, ensureEntity; simpl. by destruct (_ <=? _).
Qed.

Lemma destroy_entity_wf e w : wf w → wf (destroy_entity e w).
Proof.
  intros Hwf. unfold destroy_entity. destruct (_ <? _); [| done].
  apply wf_with_alive; [by rewrite length_insert | done].
Qed.

Lemma destroy_entity_pools e w : pools (destroy_entity e w) = pools w.
Proof. unfold destroy_entity. by destruct (_ <? _). Qed.

Lemma destroy_entity_typeMap e w : typeMap (destroy_entity e w) = typeMap w.
Proof. unfold destroy_entity. by destruct (_ <? _). Qed.

Lemma destroy_entity_typeCounter e w :
  typeCounter (destroy_entity e w) = typeCounter w.
Proof. unfold destroy_entity. by destruct (_ <? _). Qed.

Lemma destroy_entity_nextEntity e w :
  nextEntity (destroy_entity e w) = nextEntity w.
Proof. unfold destroy_entity. by destruct (_ <? _). Qed.

Lemma destroy_entity_alive e w :
  alive (destroy_entity e w) = <[N.to_nat e := false]> (alive w).
Proof.
  unfold destroy_entity. destruct (Nat.ltb_spec (N.to_nat e) (length (alive w))).
  - done.
  - by rewrite list_insert_ge.
Qed.

(** ** Components *)

Lemma pool_of_wf T p w :
  wf w → pool_of T w = Some p →
  length (data p) = length (alive w) ∧ length (mask p) = length (alive w).
Proof.
  intros Hwf. unfold pool_of.
  destruct (typeMap w !! T) as [id|]; [| done].
  destruct (pools w !! id) as [bp|] eqn:Hid; [| done].
  intros ->. by apply (wf_pool _ Hwf id).
Qed.

Lemma stored_lengths T e comp w :
  wf w →
  length (data (stored T e comp w)) = length (alive w) ∧
  length (mask (stored T e comp w)) = length (alive w).
Proof.
  intros Hwf. unfold stored; simpl. rewrite !length_insert.
  destruct (pool_of T w) as [p|] eqn:Hp; simpl.
  - by apply (pool_of_wf T).
  - by rewrite !length_replicate.
Qed.

Lemma store_at_wf T q w :
  wf w →
  length (data q) = length (alive w) → length (mask q) = length (alive w) →
  wf (store_at T q w).
Proof.
  intros Hwf Hd Hm. unfold store_at.
  apply (wf_store T); rewrite ?getTypeId_alive;
    auto using getTypeId_wf, getTypeId_registers.
Qed.

Lemma store_at_pool_of T T' q w :
  wf w →
  pool_of T' (store_at T q w) = if decide (T' = T) then Some q else pool_of T' w.
Proof.
  intros Hwf. unfold store_at.
  rewrite (pool_of_store T) by auto using getTypeId_wf, getTypeId_registers.
  case_decide; [done |]. by apply getTypeId_pool_of.
Qed.

Lemma store_at_alive T q w : alive (store_at T q w) = alive w.
Proof. unfold store_at; simpl. apply getTypeId_alive. Qed.

Lemma store_at_nextEntity T q w : nextEntity (store_at T q w) = nextEntity w.
Proof. unfold store_at; simpl. apply getTypeId_nextEntity. Qed.

Lemma store_at_typeMap T q w : typeMap (store_at T q w) = typeMap (getTypeId T w).2.
Proof. done. Qed.

Lemma add_component_error T e comp w :
  alive w !! N.to_nat e ≠ Some true → add_component T e comp w = Some (ERROR, w).
Proof.
  intros H. unfold add_component.
  by destruct (alive w !! N.to_nat e) as [[|]|].
Qed.

Lemma add_component_ok T e comp w :
  wf w → alive w !! N.to_nat e = Some true →
  add_component T e comp w =
    Some (OK, store_at T (stored T (N.to_nat e) comp w) w).
Proof.
  intros Hwf Halive. unfold add_component, store_at. rewrite Halive.
  pose proof (getTypeId_slot T w Hwf) as Hslot.
  pose proof (getTypeId_alive T w) as Hal.
  destruct (getTypeId T w) as [tid w1]; simpl in *.
  unfold ensurePool. rewrite Hslot; simpl. rewrite Hal.
  apply lookup_lt_Some in Halive.
  assert (ensureSize (length (alive w)) (default (mkPool [] []) (pool_of T w)) =
          default (mkPool (replicate (length (alive w)) dflt)
                          (replicate (length (alive w)) false)) (pool_of T w))
    as ->.
  { destruct (pool_of T w) as [p|] eqn:Hp; simpl.
    - apply ensureSize_id. destruct (pool_of_wf T p w Hwf Hp). lia.
    - apply ensureSize_empty. }
  assert (length (data (default (mkPool (replicate (length (alive w)) dflt)
            (replicate (length (alive w)) false)) (pool_of T w))) = length (alive w) ∧
          length (mask (default (mkPool (replicate (length (alive w)) dflt)
            (replicate (length (alive w)) false)) (pool_of T w))) = length (alive w))
    as [Hd Hm].
  { destruct (pool_of T w) as [p|] eqn:Hp; simpl.
    - by apply (pool_of_wf T).
    - by rewrite !length_replicate. }
  rewrite Hd, Hm.
  destruct (Nat.ltb_spec (N.to_nat e) (length (alive w))); [| lia]. simpl.
  by rewrite list_insert_insert_eq.
Qed.

Lemma get_component_wf T e w :
  wf w →
  get_component T e w = Some (component T (N.to_nat e) w, (getTypeId T w).2).
Proof.
  intros Hwf. unfold get_component, component.
  pose proof (getTypeId_slot T w Hwf) as Hslot.
  destruct (getTypeId T w) as [tid w1]; simpl in *. rewrite Hslot.
  destruct (pool_of T w) as [p|] eqn:Hp; [| done].
  destruct (pool_of_wf T p w Hwf Hp) as [Hd Hm].
  destruct (data p !! N.to_nat e) as [v|] eqn:Hv.
  - destruct (mask p !! N.to_nat e) as [[|]|] eqn:Hb; try done.
    apply lookup_lt_Some in Hv. apply lookup_ge_None in Hb. lia.
  - by destruct (mask p !! N.to_nat e) as [[|]|].
Qed.

Lemma remove_component_wf T e w :
  wf w →
  remove_component T e w =
    match pool_of T w with
    | None => (ERROR, (getTypeId T w).2)
    | Some p => (OK, store_at T (cleared (N.to_nat e) p) w)
    end.
Proof.
  intros Hwf. unfold remove_component, store_at.
  pose proof (getTypeId_slot T w Hwf) as Hslot.
  destruct (getTypeId T w) as [tid w1]; simpl in *. rewrite Hslot.
  destruct (pool_of T w) as [p|] eqn:Hp; [| done].
  destruct (Nat.ltb_spec (N.to_nat e) (length (mask p))); [done |].
  f_equal. unfold cleared. rewrite (list_insert_ge (mask p)) by done.
  destruct p as [d m]; simpl. rewrite list_insert_id by done.
  by destruct w1.
Qed.

Lemma cleared_lengths e p :
  length (data (cleared e p)) = length (data p) ∧
  length (mask (cleared e p)) = length (mask p).
Proof. unfold cleared; simpl. by rewrite length_insert. Qed.

(** The observable association after the two writers. *)
Lemma component_add T e comp w T' e' :
  wf w → alive w !! e = Some true →
  component T' e' (store_at T (stored T e comp w) w) =
    if decide (T' = T ∧ e' = e) then Some comp else component T' e' w.
Proof.
  intros Hwf Halive. apply lookup_lt_Some in Halive.
  unfold component at 1. rewrite store_at_pool_of by done.
  destruct (decide (T' = T)) as [-> | HT].
  - unfold stored; simpl.
    set (p0 := default _ (pool_of T w)).
    assert (length (data p0) = length (alive w) ∧
            length (mask p0) = length (alive w)) as [Hd Hm].
    { subst p0. destruct (pool_of T w) as [p|] eqn:Hp; simpl.
      - by apply (pool_of_wf T).
      - by rewrite !length_replicate. }
    destruct (decide (e' = e)) as [-> | He].
    + rewrite !list_lookup_insert_eq by lia.
      by rewrite decide_True.
    + rewrite !list_lookup_insert_ne by done.
      rewrite decide_False by (intros [? ?]; congruence).
      unfold component. subst p0.
      destruct (pool_of T w) as [p|] eqn:Hp; simpl; [done |].
      destruct (replicate _ false !! e') as [b|] eqn:Hb; [| done].
      by apply lookup_replicate_1 in Hb as [-> _].
  - rewrite decide_False by (intros [? ?]; congruence). done.
Qed.

Lemma component_remove T e p w T' e' :
  wf w → pool_of T w = Some p →
  component T' e' (store_at T (cleared e p) w) =
    if decide (T' = T ∧ e' = e) then None else component T' e' w.
Proof.
  intros Hwf Hp. destruct (pool_of_wf T p w Hwf Hp) as [Hd Hm].
  unfold component at 1. rewrite store_at_pool_of by done.
  destruct (decide (T' = T)) as [-> | HT].
  - unfold cleared; simpl. destruct (decide (e' = e)) as [-> | He].
    + rewrite decide_True by done.
      destruct (decide (e < length (mask p))).
      * by rewrite list_lookup_insert_eq.
      * by rewrite lookup_ge_None_2 by (rewrite length_insert; lia).
    + rewrite decide_False by (intros [? ?]; congruence).
      rewrite list_lookup_insert_ne by done. unfold component. by rewrite Hp.
  - rewrite decide_False by (intros [? ?]; congruence). done.
Qed.

(** ** Query *)

Lemma getTypeIds_wf Ts w : wf w → wf (getTypeIds Ts w).2.
Proof.
  revert w. induction Ts as [|T Ts IH]; intros w Hwf; simpl; [done |].
  pose proof (getTypeId_wf T w Hwf) as H1.
  destruct (getTypeId T w) as [id w1]; simpl in *.
  specialize (IH w1 H1). by destruct (getTypeIds Ts w1).
Qed.

Lemma getTypeIds_alive Ts w : alive (getTypeIds Ts w).2 = alive w.
Proof.
  revert w. induction Ts as [|T Ts IH]; intros w; simpl; [done |].
  pose proof (getTypeId_alive T w) as H1.
  destruct (getTypeId T w) as [id w1]; simpl in *.
  specialize (IH w1). destruct (getTypeIds Ts w1); simpl in *. congruence.
Qed.

Lemma getTypeIds_nextEntity Ts w :
  nextEntity (getTypeIds Ts w).2 = nextEntity w.
Proof.
  revert w. induction Ts as [|T Ts IH]; intros w; simpl; [done |].
  pose proof (getTypeId_nextEntity T w) as H1.
  destruct (getTypeId T w) as [id w1]; simpl in *.
  specialize (IH w1). destruct (getTypeIds Ts w1); simpl in *. congruence.
Qed.

Lemma getTypeIds_pool_of Ts T' w :
  wf w → pool_of T' (getTypeIds Ts w).2 = pool_of T' w.
Proof.
  revert w. induction Ts as [|T Ts IH]; intros w Hwf; simpl; [done |].
  pose proof (getTypeId_wf T w Hwf) as H1.
  pose proof (getTypeId_pool_of T T' w Hwf) as H2.
  destruct (getTypeId T w) as [id w1]; simpl in *.
  specialize (IH w1 H1). destruct (getTypeIds Ts w1); simpl in *. congruence.
Qed.

Lemma getTypeIds_pools Ts w i p :
  pools (getTypeIds Ts w).2 !! i = Some (Some p) ↔ pools w !! i = Some (Some p).
Proof.
  revert w. induction Ts as [|T Ts IH]; intros w; simpl; [done |].
  pose proof (getTypeId_pools T w i p) as H1.
  destruct (getTypeId T w) as [id w1]; simpl in *.
  specialize (IH w1). destruct (getTypeIds Ts w1); simpl in *.
  by rewrite IH.
Qed.

Lemma getTypeIds_typeMap Ts w T' id :
  typeMap w !! T' = Some id → typeMap (getTypeIds Ts w).2 !! T' = Some id.
Proof.
  revert w. induction Ts as [|T Ts IH]; intros w H; simpl; [done |].
  pose proof (getTypeId_typeMap T w T' id H) as H1.
  destruct (getTypeId T w) as [id1 w1]; simpl in *.
  specialize (IH w1 H1). by destruct (getTypeIds Ts w1).
Qed.

Lemma getTypeIds_slots Ts w :
  Forall2 (λ T tid, typeMap (getTypeIds Ts w).2 !! T = Some tid)
          Ts (getTypeIds Ts w).1.
Proof.
  revert w. induction Ts as [|T Ts IH]; intros w; simpl; [constructor |].
  pose proof (getTypeId_registers T w) as H1.
  destruct (getTypeId T w) as [id w1]; simpl in *.
  specialize (IH w1).
  pose proof (getTypeIds_typeMap Ts w1 T id H1) as H2.
  destruct (getTypeIds Ts w1) as [ids w2]; simpl in *.
  by constructor.
Qed.

Lemma getTypeIds_known Ts w :
  Forall (λ T, is_Some (typeMap w !! T)) Ts → (getTypeIds Ts w).2 = w.
Proof.
  induction 1 as [|T Ts [id HT] _ IH]; simpl; [done |].
  rewrite (getTypeId_known _ _ _ HT). by destruct (getTypeIds Ts w).
Qed.

Lemma pool_of_registered T w :
  is_Some (pool_of T w) → is_Some (typeMap w !! T).
Proof. unfold pool_of. destruct (typeMap w !! T); [eauto | by intros []]. Qed.

(** A probe is defined exactly when the pool exists. *)
Lemma probe_wf T tid e w :
  wf w → typeMap w !! T = Some tid →
  probe w e tid =
    match pool_of T w with
    | Some _ => Some (component T e w)
    | None => None
    end.
Proof.
  intros Hwf HT. unfold probe, component, pool_of. rewrite HT.
  destruct (pools w !! tid) as [[p|]|] eqn:Hp; try done.
  destruct (wf_pool _ Hwf tid p Hp) as [Hd Hm].
  destruct (mask p !! e) as [[|]|] eqn:Hb; try done.
  destruct (data p !! e) as [v|] eqn:Hv; [done |].
  apply lookup_lt_Some in Hb. apply lookup_ge_None in Hv. lia.
Qed.

Lemma probes_wf Ts tids e w :
  wf w →
  Forall2 (λ T tid, typeMap w !! T = Some tid) Ts tids →
  Forall (λ T, is_Some (pool_of T w)) Ts →
  probes w e tids = Some (components Ts e w).
Proof.
  intros Hwf H2. induction H2 as [|T tid Ts tids HT _ IH]; intros HF; [done |].
  inversion_clear HF as [|? ? [p Hp] HF']. simpl.
  rewrite (probe_wf T) by done. rewrite Hp; simpl.
  rewrite IH by done; simpl.
  by destruct (component T e w), (components Ts e w).
Qed.

Lemma probes_null Ts tids e w :
  wf w →
  Forall2 (λ T tid, typeMap w !! T = Some tid) Ts tids →
  Exists (λ T, pool_of T w = None) Ts →
  probes w e tids = None.
Proof.
  intros Hwf H2. induction H2 as [|T tid Ts tids HT _ IH]; intros HE.
  - inversion HE.
  - simpl. rewrite (probe_wf T) by done.
    inversion_clear HE as [? ? Hnone | ? ? HE'].
    + by rewrite Hnone.
    + rewrite IH by done. by destruct (pool_of T w).
Qed.

Lemma scan_wf Ts tids es w :
  (∀ e, e ∈ es → alive w !! e = Some true →
        probes w e tids = Some (components Ts e w)) →
  scan w tids es =
    Some (omap (λ e, match alive w !! e with
                     | Some true => pair (N.of_nat e) <$> components Ts e w
                     | _ => None
                     end) es).
Proof.
  induction es as [|e es IH]; intros Hp; [done |].
  simpl. rewrite IH by (intros; apply Hp; [by right | done]).
  unfold visit.
  destruct (alive w !! e) as [[|]|] eqn:He; simpl; try done.
  rewrite Hp by (done || left). simpl.
  by destruct (components Ts e w).
Qed.

Lemma scan_None tids es e w :
  e ∈ es → visit w tids e = None → scan w tids es = None.
Proof.
  intros Hin Hv. induction es as [|e' es IH]; [by apply elem_of_nil in Hin |].
  simpl. apply elem_of_cons in Hin as [<- | Hin].
  - by rewrite Hv.
  - rewrite IH by done. by destruct (visit w tids e').
Qed.

Lemma query_world Ts w calls w' :
  query Ts w = Some (calls, w') → w' = (getTypeIds Ts w).2.
Proof.
  unfold query. destruct (getTypeIds Ts w) as [tids w1]; simpl.
  destruct (scan w1 tids _); simpl; congruence.
Qed.

(** With every requested pool in place the query is defined, makes the
    calls of [matching] and leaves the world as it is. *)
Lemma query_spec Ts w :
  wf w → Forall (λ T, is_Some (pool_of T w)) Ts →
  query Ts w = Some (matching Ts w, w).
Proof.
  intros Hwf HF. unfold query, matching.
  assert (Forall (λ T, is_Some (typeMap w !! T)) Ts) as HR.
  { eapply Forall_impl; [exact HF |]. intros T. apply pool_of_registered. }
  pose proof (getTypeIds_slots Ts w) as Hs.
  pose proof (getTypeIds_known Ts w HR) as Hw.
  destruct (getTypeIds Ts w) as [tids w1]; simpl in *. subst w1.
  rewrite (scan_wf Ts); [done |].
  intros e _ _. by apply probes_wf.
Qed.

(** Without one of them, the first Alive entity of the scan range makes
    the query dereference a null pool. *)
Lemma query_undefined Ts w e :
  wf w → Exists (λ T, pool_of T w = None) Ts →
  e < N.to_nat (nextEntity w) → alive w !! e = Some true →
  query Ts w = None.
Proof.
  intros Hwf HE Hlt He. unfold query.
  pose proof (getTypeIds_slots Ts w) as Hs.
  pose proof (getTypeIds_wf Ts w Hwf) as Hwf1.
  pose proof (getTypeIds_alive Ts w) as Hal.
  pose proof (getTypeIds_nextEntity Ts w) as Hne.
  assert (Exists (λ T, pool_of T (getTypeIds Ts w).2 = None) Ts) as HE1.
  { eapply Exists_impl; [exact HE |]. intros T HT; simpl in *.
    by rewrite getTypeIds_pool_of. }
  destruct (getTypeIds Ts w) as [tids w1]; simpl in *.
  rewrite (scan_None tids _ e); [done | |].
  - apply elem_of_seq. rewrite Hne. lia.
  - unfold visit. rewrite Hal, He. by rewrite (probes_null Ts).
Qed.

(** ** One call from a well-formed world *)

Lemma grows_refl w : grows w w.
Proof. intros i p Hi. exists p. auto. Qed.

Lemma getTypeId_grows T w : grows w (getTypeId T w).2.
Proof. intros i p Hi. exists p. split; [by apply getTypeId_pools | auto]. Qed.

Lemma getTypeIds_grows Ts w : grows w (getTypeIds Ts w).2.
Proof. intros i p Hi. exists p. split; [by apply getTypeIds_pools | auto]. Qed.

Lemma store_at_grows T q w :
  wf w →
  length (data q) = length (alive w) → length (mask q) = length (alive w) →
  grows w (store_at T q w).
Proof.
  intros Hwf Hd Hm i p Hi. unfold store_at; simpl.
  destruct (wf_pool _ Hwf i p Hi) as [Hpd Hpm].
  apply (getTypeId_pools T) in Hi.
  destruct (decide (i = (getTypeId T w).1)) as [Heq | Hne].
  - exists q. rewrite <- Heq. apply lookup_lt_Some in Hi as Hlt.
    rewrite list_lookup_insert_eq by done. split; [done | lia].
  - exists p. rewrite list_lookup_insert_ne by done. auto.
Qed.

Lemma create_entity_grows w : wf w → grows w (create_entity w).2.
Proof.
  intros Hwf i p Hi. rewrite create_entity_pools, Hi by done. simpl.
  eexists; split; [done |].
  destruct (wf_pool _ Hwf i p Hi) as [Hd Hm].
  match goal with |- context [ensureSize ?n p] =>
    destruct (ensureSize_lengths n p) as [-> ->] end; lia.
Qed.

Lemma create_entity_pool_of T w :
  wf w → is_Some (pool_of T (create_entity w).2) ↔ is_Some (pool_of T w).
Proof.
  intros Hwf. unfold pool_of. rewrite create_entity_typeMap.
  destruct (typeMap w !! T) as [id|]; [| done].
  rewrite create_entity_pools by done.
  destruct (pools w !! id) as [[p|]|]; simpl; split; intros [? ?]; eauto; done.
Qed.

Lemma destroy_entity_pool_of T e w :
  pool_of T (destroy_entity e w) = pool_of T w.
Proof.
  unfold pool_of. by rewrite destroy_entity_typeMap, destroy_entity_pools.
Qed.

(** What a call returns and leaves behind, operation by operation. *)
Lemma exec_OAdd T e comp w r w' :
  wf w → exec (OAdd T e comp) w = Some (r, w') →
  (alive w !! N.to_nat e ≠ Some true ∧ r = RAdd ERROR ∧ w' = w) ∨
  (alive w !! N.to_nat e = Some true ∧ r = RAdd OK ∧
   w' = store_at T (stored T (N.to_nat e) comp w) w).
Proof.
  intros Hwf. simpl.
  destruct (decide (alive w !! N.to_nat e = Some true)) as [Ha | Ha].
  - rewrite add_component_ok by done. simpl. intros ?; simplify_eq. by right.
  - rewrite add_component_error by done. simpl. intros ?; simplify_eq. by left.
Qed.

Lemma exec_OGet T e w r w' :
  wf w → exec (OGet T e) w = Some (r, w') →
  r = RGet (component T (N.to_nat e) w) ∧ w' = (getTypeId T w).2.
Proof.
  intros Hwf. simpl. rewrite get_component_wf by done. simpl.
  by intros ?; simplify_eq.
Qed.

Lemma exec_ORemove T e w r w' :
  wf w → exec (ORemove T e) w = Some (r, w') →
  (pool_of T w = None ∧ r = RRemove ERROR ∧ w' = (getTypeId T w).2) ∨
  (∃ p, pool_of T w = Some p ∧ r = RRemove OK ∧
        w' = store_at T (cleared (N.to_nat e) p) w).
Proof.
  intros Hwf. simpl. rewrite remove_component_wf by done.
  destruct (pool_of T w) as [p|]; intros ?; simplify_eq; [right | left]; eauto.
Qed.

Lemma exec_OQuery Ts w r w' :
  exec (OQuery Ts) w = Some (r, w') →
  ∃ calls, query Ts w = Some (calls, w') ∧ r = RQuery calls ∧
           w' = (getTypeIds Ts w).2.
Proof.
  simpl. destruct (query Ts w) as [[calls w1]|] eqn:Hq; simpl; [| done].
  intros ?; simplify_eq. exists calls. by rewrite (query_world _ _ _ _ Hq).
Qed.

Lemma exec_OCreate w r w' :
  exec OCreate w = Some (r, w') →
  r = RCreate (nextEntity w) ∧ w' = (create_entity w).2.
Proof. simpl. by intros ?; simplify_eq. Qed.

Lemma exec_ODestroy e w r w' :
  exec (ODestroy e) w = Some (r, w') → r = RDestroy ∧ w' = destroy_entity e w.
Proof. simpl. by intros ?; simplify_eq. Qed.

Lemma exec_wf o w r w' : wf w → exec o w = Some (r, w') → wf w'.
Proof.
  intros Hwf He. destruct o as [|e|T e comp|T e|T e|Ts].
  - apply exec_OCreate in He as [_ ->]. by apply create_entity_wf.
  - apply exec_ODestroy in He as [_ ->]. by apply destroy_entity_wf.
  - apply exec_OAdd in He as [(_ & _ & ->) | (_ & _ & ->)]; [done | | done].
    destruct (stored_lengths T (N.to_nat e) comp w Hwf).
    by apply store_at_wf.
  - apply exec_OGet in He as [_ ->]; [| done]. by apply getTypeId_wf.
  - apply exec_ORemove in He as [(_ & _ & ->) | (p & Hp & _ & ->)]; [| | done].
    + by apply getTypeId_wf.
    + destruct (pool_of_wf T p w Hwf Hp), (cleared_lengths (N.to_nat e) p).
      apply store_at_wf; [done | |]; congruence.
  - apply exec_OQuery in He as (_ & _ & _ & ->). by apply getTypeIds_wf.
Qed.

Lemma exec_grows o w r w' : wf w → exec o w = Some (r, w') → grows w w'.
Proof.
  intros Hwf He. destruct o as [|e|T e comp|T e|T e|Ts].
  - apply exec_OCreate in He as [_ ->]. by apply create_entity_grows.
  - apply exec_ODestroy in He as [_ ->].
    intros i p. rewrite destroy_entity_pools. apply grows_refl.
  - apply exec_OAdd in He as [(_ & _ & ->) | (_ & _ & ->)]; [| | done].
    + apply grows_refl.
    + destruct (stored_lengths T (N.to_nat e) comp w Hwf).
      by apply store_at_grows.
  - apply exec_OGet in He as [_ ->]; [| done]. apply getTypeId_grows.
  - apply exec_ORemove in He as [(_ & _ & ->) | (p & Hp & _ & ->)]; [| | done].
    + apply getTypeId_grows.
    + destruct (pool_of_wf T p w Hwf Hp), (cleared_lengths (N.to_nat e) p).
      apply store_at_grows; [done | |]; congruence.
  - apply exec_OQuery in He as (_ & _ & _ & ->). apply getTypeIds_grows.
Qed.

(** A pool appears only through a successful [add_component]. *)
Lemma exec_pool_of T o w r w' :
  wf w → exec o w = Some (r, w') →
  is_Some (pool_of T w') ↔
  is_Some (pool_of T w) ∨ ∃ e comp, o = OAdd T e comp ∧ r = RAdd OK.
Proof.
  intros Hwf He.
  assert (∀ P : Prop, (∀ e comp, o ≠ OAdd T e comp) → (P ↔ is_Some (pool_of T w)) →
          (P ↔ is_Some (pool_of T w) ∨ ∃ e comp, o = OAdd T e comp ∧ r = RAdd OK))
    as Hother.
  { intros P Hno ->. split; [by left | intros [? | (e & c & -> & _)]; [done |]].
    by destruct (Hno e c). }
  destruct o as [|e|T0 e comp|T0 e|T0 e|Ts].
  - apply exec_OCreate in He as [_ ->].
    apply Hother; [done |]. by apply create_entity_pool_of.
  - apply exec_ODestroy in He as [_ ->].
    apply Hother; [done |]. by rewrite destroy_entity_pool_of.
  - apply exec_OAdd in He as [(_ & -> & ->) | (_ & -> & ->)]; [| | done].
    + split; [by left | intros [? | (? & ? & _ & ?)]; done].
    + rewrite store_at_pool_of by done. case_decide as Heq.
      * subst T0. split; [right; eauto | eauto].
      * split; [by left | intros [? | (? & ? & ? & _)]; [done | congruence]].
  - apply exec_OGet in He as [_ ->]; [| done].
    apply Hother; [done |]. by rewrite getTypeId_pool_of.
  - apply exec_ORemove in He as [(_ & _ & ->) | (p & Hp & _ & ->)]; [| | done].
    + apply Hother; [done |]. by rewrite getTypeId_pool_of.
    + apply Hother; [done |]. rewrite store_at_pool_of by done.
      case_decide; [subst T0; rewrite Hp; split; eauto | done].
  - apply exec_OQuery in He as (_ & _ & _ & ->).
    apply Hother; [done |]. by rewrite getTypeIds_pool_of.
Qed.

(** ** The entity counter *)

Lemma counted_newWorld : counted 0 newWorld.
Proof. by split. Qed.

Lemma create_entity_counted c w :
  counted c w → counted (c + 1) (create_entity w).2.
Proof.
  unfold counted, Entity_modulus. change (2 ^ 32)%N with 4294967296%N.
  intros [Hlen Hnext]. rewrite create_entity_alive, length_insert. split.
  - assert (nextEntity w < 4294967296)%N as Hlt
      by (rewrite Hnext; by apply N.mod_upper_bound).
    assert (c < 4294967296 → nextEntity w = c)%N as Hsmall
      by (intros; rewrite Hnext; by apply N.mod_small).
    destruct (Nat.leb_spec (length (alive w)) (N.to_nat (nextEntity w)));
      rewrite ?length_resize; lia.
  - unfold create_entity; simpl. rewrite ensureEntity_nextEntity; simpl.
    rewrite Hnext. apply N.Div0.add_mod_idemp_l.
Qed.

Lemma counted_same c w w' :
  length (alive w') = length (alive w) → nextEntity w' = nextEntity w →
  counted c w → counted c w'.
Proof. unfold counted. by intros -> ->. Qed.

Lemma exec_counted c o w r w' :
  wf w → counted c w → exec o w = Some (r, w') → counted (c + creates [o]) w'.
Proof.
  intros Hwf Hc He. destruct o as [|e|T e comp|T e|T e|Ts]; simpl creates;
    rewrite ?N.add_0_r.
  - apply exec_OCreate in He as [_ ->]. by apply create_entity_counted.
  - apply exec_ODestroy in He as [_ ->]. revert Hc. apply counted_same.
    + by rewrite destroy_entity_alive, length_insert.
    + apply destroy_entity_nextEntity.
  - apply exec_OAdd in He as [(_ & _ & ->) | (_ & _ & ->)]; [done | | done].
    revert Hc. apply counted_same;
      [by rewrite store_at_alive | apply store_at_nextEntity].
  - apply exec_OGet in He as [_ ->]; [| done]. revert Hc.
    apply counted_same; [by rewrite getTypeId_alive | apply getTypeId_nextEntity].
  - apply exec_ORemove in He as [(_ & _ & ->) | (p & Hp & _ & ->)]; [| | done];
      revert Hc; apply counted_same;
      by rewrite ?getTypeId_alive, ?getTypeId_nextEntity,
                 ?store_at_alive, ?store_at_nextEntity.
  - apply exec_OQuery in He as (_ & _ & _ & ->). revert Hc.
    apply counted_same;
      [by rewrite getTypeIds_alive | apply getTypeIds_nextEntity].
Qed.

(** ** Programs *)

Lemma run_cons o os w h w' :
  run (o :: os) w = Some (h, w') →
  ∃ r w1 h1, exec o w = Some (r, w1) ∧ run os w1 = Some (h1, w') ∧
             h = (o, r) :: h1.
Proof.
  simpl. destruct (exec o w) as [[r w1]|]; simpl; [| done].
  destruct (run os w1) as [[h1 w2]|] eqn:Hr; simpl; [| done].
  intros ?; simplify_eq. by exists r, w1, h1.
Qed.

Lemma run_wf os w h w' : wf w → run os w = Some (h, w') → wf w'.
Proof.
  revert w h. induction os as [|o os IH]; intros w h Hwf Hr.
  - simpl in Hr. by simplify_eq.
  - apply run_cons in Hr as (r & w1 & h1 & He & Hr & ->).
    eapply IH; [| done]. by eapply exec_wf.
Qed.

Lemma run_counted c os w h w' :
  wf w → counted c w → run os w = Some (h, w') → counted (c + creates os) w'.
Proof.
  revert c w h. induction os as [|o os IH]; intros c w h Hwf Hc Hr.
  - simpl in *. simplify_eq. by rewrite N.add_0_r.
  - apply run_cons in Hr as (r & w1 & h1 & He & Hr & ->).
    replace (c + creates (o :: os))%N with (c + creates [o] + creates os)%N
      by (destruct o; simpl; lia).
    eapply IH; [by eapply exec_wf | by eapply exec_counted | done].
Qed.

Lemma run_pool_of T os w h w' :
  wf w → run os w = Some (h, w') →
  is_Some (pool_of T w') ↔ is_Some (pool_of T w) ∨ added T h.
Proof.
  revert w h. induction os as [|o os IH]; intros w h Hwf Hr.
  - simpl in Hr. simplify_eq. split; [by left |].
    intros [? | (e & c & Hin)]; [done | by apply elem_of_nil in Hin].
  - apply run_cons in Hr as (r & w1 & h1 & He & Hr & ->).
    rewrite (IH w1 h1) by (done || by eapply exec_wf).
    rewrite (exec_pool_of T o w r w1) by done. unfold added. split.
    + intros [[? | (e & c & -> & ->)] | (e & c & Hin)]; [by left | |].
      * right. exists e, c. by left.
      * right. exists e, c. by right.
    + intros [? | (e & c & Hin)]; [by left; left |].
      apply elem_of_cons in Hin as [Heq | Hin].
      * simplify_eq. left; right. eauto.
      * right. eauto.
Qed.

(** From a well-formed world every call returns, a query provided that the
    pools of its types exist. *)
Lemma exec_defined o w :
  wf w →
  (∀ Ts, o = OQuery Ts → Forall (λ T, is_Some (pool_of T w)) Ts) →
  is_Some (exec o w).
Proof.
  intros Hwf Hq. destruct o as [|e|T e comp|T e|T e|Ts]; simpl.
  - by destruct (create_entity w).
  - done.
  - destruct (decide (alive w !! N.to_nat e = Some true)).
    + by rewrite add_component_ok.
    + by rewrite add_component_error.
  - by rewrite get_component_wf.
  - by destruct (remove_component T e w).
  - by rewrite query_spec by auto.
Qed.

(** Worlds a program reaches from a new [World]. *)
Lemma reach_wf os h w : run os newWorld = Some (h, w) → wf w.
Proof. apply run_wf, wf_newWorld. Qed.

Lemma reach_counted os h w :
  run os newWorld = Some (h, w) → counted (creates os) w.
Proof.
  intros Hr. rewrite <- (N.add_0_l (creates os)).
  eapply run_counted; [apply wf_newWorld | apply counted_newWorld | done].
Qed.

Lemma reach_pool_of T os h w :
  run os newWorld = Some (h, w) → is_Some (pool_of T w) ↔ added T h.
Proof.
  intros Hr. rewrite (run_pool_of T os newWorld h w wf_newWorld Hr).
  split; [intros [[? H] | ?]; [done | done] | by right].
Qed.

(** ** Further facts used by the main results *)



Lemma getTypeId_store_at T q w :
  getTypeId T (store_at T q w) = ((getTypeId T w).1, store_at T q w).
Proof.
  apply getTypeId_known. rewrite store_at_typeMap. apply getTypeId_registers.
Qed.

(** Fewer than [2^32] creations: the counter has not wrapped, and every
    entry of the liveness table lies in the range a query scans. *)
Lemma counted_nowrap c w :
  (c < Entity_modulus)%N → counted c w →
  nextEntity w = N.of_nat (length (alive w)).
Proof.
  unfold counted. intros Hc [Hlen Hnext].
  rewrite Hnext, Hlen, N.mod_small by done. lia.
Qed.

Lemma getTypeId_destroy_entity T e w :
  getTypeId T (destroy_entity e w) =
    ((getTypeId T w).1, destroy_entity e (getTypeId T w).2).
Proof.
  unfold getTypeId.
  rewrite destroy_entity_typeMap, destroy_entity_pools, destroy_entity_typeCounter.
  destruct (typeMap w !! T); [done |].
  unfold destroy_entity; simpl. by destruct (_ <? _).
Qed.

Lemma cleared_flag (l : list bool) i : <[i := false]> l !! i ≠ Some true.
Proof.
  destruct (decide (i < length l)).
  - by rewrite list_lookup_insert_eq.
  - by rewrite lookup_ge_None_2 by (rewrite length_insert; lia).
Qed.

(** In any world, well-formed or not, the component operations and the
    query leave the liveness table alone. *)
Lemma add_component_alive T e comp w s w' :
  add_component T e comp w = Some (s, w') → alive w' = alive w.
Proof.
  unfold add_component.
  destruct (alive w !! N.to_nat e) as [[|]|]; [| by intros ?; simplify_eq..].
  pose proof (getTypeId_alive T w) as Hal.
  destruct (getTypeId T w) as [tid w1]; simpl in Hal. unfold ensurePool.
  destruct (pools w1 !! tid) as [slot|]; simpl; [| done].
  destruct (_ && _); [| done]. by intros ?; simplify_eq.
Qed.

Lemma get_component_world T e w r w' :
  get_component T e w = Some (r, w') → w' = (getTypeId T w).2.
Proof.
  unfold get_component. destruct (getTypeId T w) as [tid w1]; simpl.
  destruct (pools w1 !! tid) as [[pool|]|]; [| by intros ?; simplify_eq..].
  destruct (data pool !! N.to_nat e); [| by intros ?; simplify_eq].
  destruct (mask pool !! N.to_nat e) as [[|]|]; by intros ?; simplify_eq.
Qed.

Lemma remove_component_alive T e w :
  alive (remove_component T e w).2 = alive w.
Proof.
  unfold remove_component.
  pose proof (getTypeId_alive T w) as Hal.
  destruct (getTypeId T w) as [tid w1]; simpl in Hal.
  destruct (pools w1 !! tid) as [[pool|]|]; [destruct (_ <? _) | |]; done.
Qed.

(** Only [create_entity] sets a liveness flag. *)
Lemma exec_keeps_dead o w r w' e :
  creates [o] = 0%N → exec o w = Some (r, w') →
  alive w !! e ≠ Some true → alive w' !! e ≠ Some true.
Proof.
  intros Hc He Hd. destruct o as [|e0|T e0 comp|T e0|T e0|Ts]; [done |..].
  - apply exec_ODestroy in He as [_ ->]. rewrite destroy_entity_alive.
    destruct (decide (N.to_nat e0 = e)) as [<- | Hne].
    + apply cleared_flag.
    + by rewrite list_lookup_insert_ne.
  - simpl in He.
    destruct (add_component T e0 comp w) as [[s w1]|] eqn:Ha; [| done].
    simpl in He. simplify_eq. by rewrite (add_component_alive _ _ _ _ _ _ Ha).
  - simpl in He.
    destruct (get_component T e0 w) as [[p w1]|] eqn:Hg; [| done].
    simpl in He. simplify_eq.
    by rewrite (get_component_world _ _ _ _ _ Hg), getTypeId_alive.
  - simpl in He. pose proof (remove_component_alive T e0 w) as Hal.
    destruct (remove_component T e0 w) as [s w1]. simpl in Hal.
    simplify_eq. by rewrite Hal.
  - apply exec_OQuery in He as (_ & _ & _ & ->). by rewrite getTypeIds_alive.
Qed.


(** With the counter not wrapped, [create_entity] issues the index one past
    the liveness table, so it does not revive an entity either. *)
Lemma exec_keeps_destroyed c o w r w' e :
  wf w → counted c w → (c + creates [o] ≤ Entity_modulus)%N →
  exec o w = Some (r, w') →
  e < length (alive w) → alive w !! e ≠ Some true →
  e < length (alive w') ∧ alive w' !! e ≠ Some true.
Proof.
  intros Hwf Hc Hle He Hlt Hd.
  assert (creates [o] = 0%N →
          e < length (alive w') ∧ alive w' !! e ≠ Some true) as Hother.
  { intros Hz. split; [| by eapply exec_keeps_dead].
    pose proof (exec_counted c o w r w' Hwf Hc He) as [Hlen' _].
    destruct Hc as [Hlen _]. rewrite Hz, N.add_0_r in Hlen'. lia. }
  destruct o; try (by apply Hother). clear Hother.
  apply exec_OCreate in He as [_ ->]. simpl in Hle.
  rewrite create_entity_alive.
  rewrite (counted_nowrap c w) by (done || lia). rewrite Nat2N.id.
  destruct (Nat.leb_spec (length (alive w)) (length (alive w))); [| lia].
  rewrite length_insert, length_resize. split; [lia |].
  rewrite list_lookup_insert_ne by lia. by rewrite lookup_resize by lia.
Qed.

Lemma run_keeps_destroyed c os w h w' e :
  wf w → counted c w → (c + creates os ≤ Entity_modulus)%N →
  run os w = Some (h, w') →
  e < length (alive w) → alive w !! e ≠ Some true →
  alive w' !! e ≠ Some true.
Proof.
  revert c w h. induction os as [|o os IH]; intros c w h Hwf Hc Hle Hr Hlt Hd.
  - simpl in Hr. by simplify_eq.
  - apply run_cons in Hr as (r & w1 & h1 & He & Hr & ->).
    assert (creates (o :: os) = creates [o] + creates os)%N as Hsum
      by (destruct o; simpl; lia).
    destruct (exec_keeps_destroyed c o w r w1 e) as [Hlt1 Hd1];
      [done | done | lia | done | done | done |].
    eapply (IH (c + creates [o])%N w1);
      [by eapply exec_wf | by eapply exec_counted | lia | done | done | done].
Qed.

(** An entity that was created and then destroyed is never Alive again,
    nor does it take a component, for as long as the World has issued no more
    than [2^32] entities. *)
Lemma destroyed_entity_stays_dead os h w os' h' w' T e comp :
  run os newWorld = Some (h, w) →
  N.to_nat e < length (alive w) →
  run os' (destroy_entity e w) = Some (h', w') →
  (creates os + creates os' ≤ Entity_modulus)%N →
  add_component T e comp w' = Some (ERROR, w').
Proof.
  intros Hr Hlt Hr' Hle. apply add_component_error.
  eapply (run_keeps_destroyed (creates os) os' (destroy_entity e w));
    [| | done | done | |].
  - by eapply destroy_entity_wf, reach_wf.
  - eapply counted_same; [| | by eapply reach_counted].
    + by rewrite destroy_entity_alive, length_insert.
    + apply destroy_entity_nextEntity.
  - by rewrite destroy_entity_alive, length_insert.
  - rewrite destroy_entity_alive. apply cleared_flag.
Qed.

(** ** What an association survives *)

Lemma ensureSize_flag n p e :
  length (data p) = length (mask p) →
  match mask (ensureSize n p) !! e with
  | Some true => data (ensureSize n p) !! e
  | _ => None
  end =
  match mask p !! e with
  | Some true => data p !! e
  | _ => None
  end.
Proof.
  intros Hlen. unfold ensureSize.
  destruct (Nat.ltb_spec (length (data p)) n); [| done]. simpl.
  destruct (decide (e < length (mask p))) as [Hlt | Hge].
  - by rewrite !lookup_resize by lia.
  - rewrite (lookup_ge_None_2 (mask p)) by lia.
    destruct (decide (e < n)).
    + by rewrite lookup_resize_new by lia.
    + by rewrite lookup_resize_old by lia.
Qed.

Lemma create_entity_component T e w :
  wf w → component T e (create_entity w).2 = component T e w.
Proof.
  intros Hwf. unfold component, pool_of. rewrite create_entity_typeMap.
  destruct (typeMap w !! T) as [id|]; [| done].
  rewrite create_entity_pools by done.
  destruct (pools w !! id) as [[p|]|] eqn:Hp; simpl; try done.
  apply ensureSize_flag. destruct (wf_pool _ Hwf id p Hp). congruence.
Qed.

Lemma destroy_entity_component T e e0 w :
  component T e (destroy_entity e0 w) = component T e w.
Proof. unfold component. by rewrite destroy_entity_pool_of. Qed.

Lemma getTypeIds_component Ts T e w :
  wf w → component T e (getTypeIds Ts w).2 = component T e w.
Proof. intros Hwf. unfold component. by rewrite getTypeIds_pool_of. Qed.

(** Only an [add_component] or a [remove_component] of the same type on
    the same entity changes what the entity carries for that type. *)
Lemma exec_component T e o w r w' :
  wf w → writes T e o = false → exec o w = Some (r, w') →
  component T (N.to_nat e) w' = component T (N.to_nat e) w.
Proof.
  intros Hwf Hw He. destruct o as [|e0|T0 e0 comp|T0 e0|T0 e0|Ts].
  - apply exec_OCreate in He as [_ ->]. by apply create_entity_component.
  - apply exec_ODestroy in He as [_ ->]. apply destroy_entity_component.
  - apply exec_OAdd in He as [(_ & _ & ->) | (Ha & _ & ->)]; [done | | done].
    rewrite component_add by done. rewrite decide_False; [done |].
    intros [-> Heq]. apply N2Nat.inj in Heq. subst e0. simpl in Hw.
    by rewrite !N.eqb_refl in Hw.
  - apply exec_OGet in He as [_ ->]; [| done]. by apply getTypeId_component.
  - apply exec_ORemove in He as [(_ & _ & ->) | (p & Hp & _ & ->)]; [| | done].
    + by apply getTypeId_component.
    + rewrite (component_remove T0 _ p) by done. rewrite decide_False; [done |].
      intros [-> Heq]. apply N2Nat.inj in Heq. subst e0. simpl in Hw.
      by rewrite !N.eqb_refl in Hw.
  - apply exec_OQuery in He as (_ & _ & _ & ->). by apply getTypeIds_component.
Qed.

Lemma run_component T e os w h w' :
  wf w → Forall (λ o, writes T e o = false) os → run os w = Some (h, w') →
  component T (N.to_nat e) w' = component T (N.to_nat e) w.
Proof.
  revert w h. induction os as [|o os IH]; intros w h Hwf HF Hr.
  - simpl in Hr. by simplify_eq.
  - apply run_cons in Hr as (r & w1 & h1 & He & Hr & ->).
    inversion_clear HF as [|? ? Ho HF'].
    rewrite (IH w1 h1) by (done || by eapply exec_wf).
    by eapply exec_component.
Qed.

(** What an entity carried when it was destroyed, [get_component] keeps
    returning until a call removes or overwrites that very association. *)
Lemma component_survives_destroy os h w os' h' w' T e :
  run os newWorld = Some (h, w) →
  run os' (destroy_entity e w) = Some (h', w') →
  Forall (λ o, writes T e o = false) os' →
  fst <$> get_component T e w' = fst <$> get_component T e w.
Proof.
  intros Hr Hr' HF. pose proof (reach_wf _ _ _ Hr) as Hwf.
  pose proof (destroy_entity_wf e w Hwf) as Hwfd.
  rewrite !get_component_wf by (done || by eapply run_wf). simpl.
  rewrite (run_component T e os' _ h' w') by done.
  by rewrite destroy_entity_component.
Qed.



(** * Main results *)



(** C7.  [destroy_entity(w, e)] touches nothing but the liveness flag of
    [e]: pools, registry and counter are the same, the liveness table has the
    same length and the same flags everywhere else; and [get_component], which
    never looks at liveness, answers for every type and entity exactly as it
    did before the destruction. *)
Theorem destroy_entity_frame e w :
  pools (destroy_entity e w) = pools w ∧
  typeMap (destroy_entity e w) = typeMap w ∧
  typeCounter (destroy_entity e w) = typeCounter w ∧
  nextEntity (destroy_entity e w) = nextEntity w ∧
  length (alive (destroy_entity e w)) = length (alive w) ∧
  (∀ e', e' ≠ N.to_nat e →
         alive (destroy_entity e w) !! e' = alive w !! e') ∧
  (∀ T e', get_component T e' (destroy_entity e w) =
           prod_map id (destroy_entity e) <$> get_component T e' w).
Proof.
  repeat split.
  - apply destroy_entity_pools.
  - apply destroy_entity_typeMap.
  - apply destroy_entity_typeCounter.
  - apply destroy_entity_nextEntity.
  - by rewrite destroy_entity_alive, length_insert.
  - intros e' Hne. rewrite destroy_entity_alive.
    by rewrite list_lookup_insert_ne.
  - intros T e'. unfold get_component.
    rewrite getTypeId_destroy_entity.
    destruct (getTypeId T w) as [tid w1]; simpl.
    rewrite destroy_entity_pools.
    destruct (pools w1 !! tid) as [[pool|]|]; [| done..].
    destruct (data pool !! N.to_nat e'); [| done].
    by destruct (mask pool !! N.to_nat e') as [[|]|].
Qed.

(** C2 (as amended).  In every World a program reaches, the pool of [T]
    exists if and only if some [add_component<T>] has returned OK on that
    World: the first successful [add_component<T>] makes it; [get_component],
    [remove_component], [query] and a failing [add_component] never do; and
    before that first success there is no pool for [T]. *)
Theorem pool_exists_iff_added os h w T :
  run os newWorld = Some (h, w) →
  is_Some (pool_of T w) ↔ added T h.
Proof. apply reach_pool_of. Qed.

(** C4 (as amended).  In every World a program reaches,
    [remove_component<T>(w, e)] returns ERROR if and only if the pool of [T]
    does not exist, that is, no [add_component<T>] has succeeded on that World
    (a type slot assigned by an earlier get, remove or query does not count);
    otherwise it returns OK, the presence flag of [e] is cleared when [e] is
    inside the pool and nothing is written when it is not, the stored values
    are kept, and neither liveness nor any other pool changes. *)
Theorem remove_component_result os h w T e :
  run os newWorld = Some (h, w) →
  ((remove_component T e w).1 = ERROR ↔ ¬ added T h) ∧
  ((remove_component T e w).1 = OK ↔ added T h) ∧
  (∀ p, pool_of T w = Some p →
        pool_of T (remove_component T e w).2 =
          Some (mkPool (data p)
                       (if N.to_nat e <? length (mask p)
                        then <[N.to_nat e := false]> (mask p)
                        else mask p))) ∧
  alive (remove_component T e w).2 = alive w ∧
  nextEntity (remove_component T e w).2 = nextEntity w ∧
  (∀ T', T' ≠ T →
         pool_of T' (remove_component T e w).2 = pool_of T' w).
Proof.
  intros Hr. pose proof (reach_wf _ _ _ Hr) as Hwf.
  pose proof (reach_pool_of T _ _ _ Hr) as Hadd.
  rewrite remove_component_wf by done.
  destruct (pool_of T w) as [p|] eqn:Hp; simpl fst; simpl snd.
  - assert (added T h) as Ha by (apply Hadd; eauto).
    split_and!.
    + split; [done | intros Hn; by destruct Hn].
    + done.
    + intros p' [= <-]. rewrite store_at_pool_of by done.
      rewrite decide_True by done. unfold cleared. do 2 f_equal.
      destruct (Nat.ltb_spec (N.to_nat e) (length (mask p))); [done |].
      by apply list_insert_ge.
    + apply store_at_alive.
    + apply store_at_nextEntity.
    + intros T' Hne. rewrite store_at_pool_of by done.
      by rewrite decide_False.
  - assert (¬ added T h) as Ha by (intros Ha; apply Hadd in Ha as [? ?]; done).
    split_and!.
    + done.
    + split; [done | intros Hn; by destruct Ha].
    + done.
    + apply getTypeId_alive.
    + apply getTypeId_nextEntity.
    + intros T' _. by apply getTypeId_pool_of.
Qed.


(** C8.  In every World a program reaches, each existing pool has a value
    array and a flag array of one length, the length of the liveness table,
    which is the number of entities created so far (there being at most
    [2^32] entities in a World, the range of [Entity]); and no call of the
    public API drops a pool or makes either array of a pool shorter. *)
Theorem pool_lengths os h w :
  run os newWorld = Some (h, w) →
  (∀ i p, pools w !! i = Some (Some p) →
          length (data p) = length (mask p) ∧
          length (mask p) = length (alive w)) ∧
  N.of_nat (length (alive w)) = N.min (creates os) Entity_modulus ∧
  (∀ o r w', exec o w = Some (r, w') → grows w w').
Proof.
  intros Hr. pose proof (reach_wf _ _ _ Hr) as Hwf. split_and!.
  - intros i p Hi. destruct (wf_pool _ Hwf i p Hi). split; congruence.
  - apply (reach_counted _ _ _ Hr).
  - intros o r w'. by apply exec_grows.
Qed.

(** C9.  When every type of [Ts] has been attached by a successful
    [add_component] earlier in the program, [query<Ts...>] is defined: each
    pool it dereferences exists, the flag and value of every Alive entity are
    inside that pool's arrays, and the query returns its calls without
    changing the World. *)
Theorem query_defined os h w Ts :
  run os newWorld = Some (h, w) →
  Forall (λ T, added T h) Ts →
  Forall (λ T, ∃ p, pool_of T w = Some p ∧
                    ∀ e, alive w !! e = Some true →
                         e < length (mask p) ∧ e < length (data p)) Ts ∧
  ∃ calls, query Ts w = Some (calls, w).
Proof.
  intros Hr HF. pose proof (reach_wf _ _ _ Hr) as Hwf.
  assert (Forall (λ T, is_Some (pool_of T w)) Ts) as HP.
  { eapply Forall_impl; [exact HF |]. intros T. apply (reach_pool_of T _ _ _ Hr). }
  split.
  - eapply Forall_impl; [exact HP |]. intros T [p Hp]. exists p. split; [done |].
    intros e He. apply lookup_lt_Some in He.
    destruct (pool_of_wf T p w Hwf Hp). lia.
  - exists (matching Ts w). by apply query_spec.
Qed.

(** C10.  In every World a program reaches, a successful
    [add_component<T>(w, e, comp)] leaves the liveness table and the entity
    counter as they were, and [get_component<T'>(_, e')] answers as before for
    every pair [(T', e')] other than [(T, e)]. *)
Theorem add_component_frame os h w T e comp w' :
  run os newWorld = Some (h, w) →
  add_component T e comp w = Some (OK, w') →
  alive w' = alive w ∧
  nextEntity w' = nextEntity w ∧
  (∀ T' e', (T', e') ≠ (T, e) →
            fst <$> get_component T' e' w' = fst <$> get_component T' e' w).
Proof.
  intros Hr Hadd. pose proof (reach_wf _ _ _ Hr) as Hwf.
  assert (alive w !! N.to_nat e = Some true) as Ha.
  { destruct (decide (alive w !! N.to_nat e = Some true)) as [| Hn]; [done |].
    rewrite add_component_error in Hadd by done. by simplify_eq. }
  rewrite add_component_ok in Hadd by done. simplify_eq.
  assert (wf (store_at T (stored T (N.to_nat e) comp w) w)) as Hwf'.
  { destruct (stored_lengths T (N.to_nat e) comp w Hwf). by apply store_at_wf. }
  split_and!.
  - apply store_at_alive.
  - apply store_at_nextEntity.
  - intros T' e' Hne. rewrite !get_component_wf by done. simpl.
    rewrite component_add by done.
    rewrite decide_False; [done |].
    intros [-> Heq]. apply N2Nat.inj in Heq. by subst.
Qed.

(** * Further properties of the operations *)

(** ** [Pool::ensureSize] *)

Lemma resize_grow_twice {A} (x : A) (l : list A) n m :
  length l ≤ n → n ≤ m → resize m x (resize n x l) = resize m x l.
Proof.
  intros Hn Hm. rewrite (resize_ge l n), (resize_ge l m) by lia.
  rewrite resize_ge by (rewrite length_app, length_replicate; lia).
  rewrite length_app, length_replicate, <- (assoc_L (++)), <- replicate_add.
  do 2 f_equal. lia.
Qed.

(** X1.  On a pool whose two arrays have one length, [ensureSize(n)] makes
    both arrays [max(size, n)] long, keeps every stored value and flag, fills
    the new slots with the value-initialised element and a clear flag, and two
    calls amount to one call with the larger size (so a call with [n] not
    above the current size changes nothing). *)
Theorem ensureSize_extends n p :
  length (data p) = length (mask p) →
  length (data (ensureSize n p)) = length (data p) `max` n ∧
  length (mask (ensureSize n p)) = length (mask p) `max` n ∧
  (∀ i, i < length (data p) →
        data (ensureSize n p) !! i = data p !! i ∧
        mask (ensureSize n p) !! i = mask p !! i) ∧
  (∀ i, length (data p) ≤ i < n →
        data (ensureSize n p) !! i = Some dflt ∧
        mask (ensureSize n p) !! i = Some false) ∧
  (∀ m, ensureSize m (ensureSize n p) = ensureSize (n `max` m) p).
Proof.
  intros Hlen. unfold ensureSize.
  destruct (Nat.ltb_spec (length (data p)) n) as [Hlt | Hge]; simpl.
  - rewrite !length_resize. split_and!; [lia | lia | | |].
    + intros i Hi. by rewrite !lookup_resize by lia.
    + intros i Hi. by rewrite !lookup_resize_new by lia.
    + intros m.
      destruct (Nat.ltb_spec (length (data p)) (n `max` m)); [| lia].
      destruct (Nat.ltb_spec n m).
      * replace (n `max` m) with m by lia.
        by rewrite !resize_grow_twice by lia.
      * by replace (n `max` m) with n by lia.
  - split_and!; [lia | lia | done | intros; lia |].
    intros m.
    destruct (Nat.ltb_spec (length (data p)) m),
             (Nat.ltb_spec (length (data p)) (n `max` m)); try lia; [| done].
    by replace (n `max` m) with m by lia.
Qed.

(** ** [destroy_entity] *)

Lemma destroy_entity_eq e w :
  destroy_entity e w = with_alive (<[N.to_nat e := false]> (alive w)) w.
Proof.
  unfold destroy_entity.
  destruct (Nat.ltb_spec (N.to_nat e) (length (alive w))); [done |].
  rewrite list_insert_ge by done. by destruct w.
Qed.

(** X2.  In any World, [destroy_entity(w, e)] leaves [e] not Alive; doing
    it twice is doing it once; two destructions can be done in either order;
    and on an index past the liveness table, or one already Dead, it changes
    nothing at all. *)
Theorem destroy_entity_algebra e e' w :
  alive (destroy_entity e w) !! N.to_nat e ≠ Some true ∧
  destroy_entity e (destroy_entity e w) = destroy_entity e w ∧
  destroy_entity e (destroy_entity e' w) =
    destroy_entity e' (destroy_entity e w) ∧
  (length (alive w) ≤ N.to_nat e → destroy_entity e w = w) ∧
  (alive w !! N.to_nat e = Some false → destroy_entity e w = w).
Proof.
  rewrite !destroy_entity_eq. unfold with_alive; simpl. split_and!.
  - apply cleared_flag.
  - by rewrite list_insert_insert_eq.
  - destruct (decide (N.to_nat e = N.to_nat e')) as [-> | Hne]; [done |].
    by rewrite list_insert_insert_ne.
  - intros Hge. rewrite list_insert_ge by done. by destruct w.
  - intros Hd. rewrite list_insert_id by done. by destruct w.
Qed.

(** ** [create_entity] *)

Lemma create_entity_alive_other w e :
  e ≠ N.to_nat (nextEntity w) →
  alive (create_entity w).2 !! e = Some true ↔ alive w !! e = Some true.
Proof.
  intros Hne. rewrite create_entity_alive, list_lookup_insert_ne by done.
  destruct (Nat.leb_spec (length (alive w)) (N.to_nat (nextEntity w))); [| done].
  destruct (decide (e < length (alive w))).
  - by rewrite lookup_resize by lia.
  - rewrite (lookup_ge_None_2 (alive w)) by lia.
    destruct (decide (e < S (N.to_nat (nextEntity w)))).
    + by rewrite lookup_resize_new by lia.
    + by rewrite lookup_resize_old by lia.
Qed.

Lemma create_entity_alive_new w :
  alive (create_entity w).2 !! N.to_nat (nextEntity w) = Some true.
Proof.
  rewrite create_entity_alive. apply list_lookup_insert_eq.
  destruct (Nat.leb_spec (length (alive w)) (N.to_nat (nextEntity w)));
    rewrite ?length_resize; lia.
Qed.

(** X3.  In a World on which [k] entities have been created,
    [create_entity] returns [k mod 2^32], hence [k] itself, an index not yet
    in the liveness table, as long as [k < 2^32]; the returned entity is Alive
    afterwards and the liveness of every other index is as before. *)
Theorem create_entity_sequential os h w :
  run os newWorld = Some (h, w) →
  (create_entity w).1 = (creates os mod Entity_modulus)%N ∧
  ((creates os < Entity_modulus)%N →
   (create_entity w).1 = creates os ∧
   alive w !! N.to_nat (creates os) = None) ∧
  alive (create_entity w).2 !! N.to_nat (create_entity w).1 = Some true ∧
  (∀ e, e ≠ N.to_nat (create_entity w).1 →
        alive (create_entity w).2 !! e = Some true ↔ alive w !! e = Some true).
Proof.
  intros Hr. pose proof (reach_counted _ _ _ Hr) as Hc.
  change (create_entity w).1 with (nextEntity w). split_and!.
  - apply Hc.
  - intros Hlt. pose proof (counted_nowrap _ _ Hlt Hc) as Hn.
    destruct Hc as [Hlen Hnext]. rewrite N.mod_small in Hnext by done.
    split; [done |]. apply lookup_ge_None. lia.
  - apply create_entity_alive_new.
  - apply create_entity_alive_other.
Qed.

(** X4.  Creating an entity changes no answer of [get_component]; and as
    long as fewer than [2^32] entities have been created, the entity it
    returns carries no component of any type. *)
Theorem create_entity_components os h w :
  run os newWorld = Some (h, w) →
  (∀ T e, fst <$> get_component T e (create_entity w).2 =
          fst <$> get_component T e w) ∧
  ((creates os < Entity_modulus)%N →
   ∀ T, fst <$> get_component T (create_entity w).1 (create_entity w).2 =
        Some None).
Proof.
  intros Hr. pose proof (reach_wf _ _ _ Hr) as Hwf.
  pose proof (create_entity_wf w Hwf) as Hwf'.
  assert (∀ T e, fst <$> get_component T e (create_entity w).2 =
                 fst <$> get_component T e w) as Hsame.
  { intros T e. rewrite !get_component_wf by done.
    by rewrite create_entity_component. }
  split; [done |]. intros Hlt T. rewrite Hsame.
  rewrite get_component_wf by done. simpl. do 2 f_equal.
  change (create_entity w).1 with (nextEntity w).
  rewrite (counted_nowrap _ _ Hlt (reach_counted _ _ _ Hr)), Nat2N.id.
  unfold component. destruct (pool_of T w) as [p|] eqn:Hp; [| done].
  destruct (pool_of_wf T p w Hwf Hp) as [_ Hm].
  by rewrite lookup_ge_None_2 by lia.
Qed.

(** ** Liveness and components as the history determines them *)

Lemma exec_live e b o w r w' :
  exec o w = Some (r, w') →
  (alive w !! N.to_nat e = Some true ↔ b = true) →
  (alive w' !! N.to_nat e = Some true ↔ live_after e b (o, r) = true).
Proof.
  intros He Hb. destruct o as [|e0|T e0 comp|T e0|T e0|Ts].
  - apply exec_OCreate in He as [-> ->]. unfold live_after.
    destruct (N.eqb_spec (nextEntity w) e) as [<- | Hne].
    + by rewrite create_entity_alive_new.
    + rewrite create_entity_alive_other; [done |].
      intros Heq. by apply N2Nat.inj in Heq.
  - apply exec_ODestroy in He as [-> ->]. unfold live_after.
    rewrite destroy_entity_alive.
    destruct (N.eqb_spec e0 e) as [<- | Hne].
    + split; [| done]. intros Ht. by apply cleared_flag in Ht.
    + rewrite list_lookup_insert_ne; [done |].
      intros Heq. by apply N2Nat.inj in Heq.
  - simpl in He.
    destruct (add_component T e0 comp w) as [[s w1]|] eqn:Ha; [| done].
    simpl in He. simplify_eq. by rewrite (add_component_alive _ _ _ _ _ _ Ha).
  - simpl in He.
    destruct (get_component T e0 w) as [[p w1]|] eqn:Hg; [| done].
    simpl in He. simplify_eq.
    by rewrite (get_component_world _ _ _ _ _ Hg), getTypeId_alive.
  - simpl in He. pose proof (remove_component_alive T e0 w) as Hal.
    destruct (remove_component T e0 w) as [s w1]. simpl in Hal.
    simplify_eq. by rewrite Hal.
  - apply exec_OQuery in He as (calls & _ & -> & ->).
    by rewrite getTypeIds_alive.
Qed.

Lemma run_live e os w h w' b :
  run os w = Some (h, w') →
  (alive w !! N.to_nat e = Some true ↔ b = true) →
  (alive w' !! N.to_nat e = Some true ↔ fold_left (live_after e) h b = true).
Proof.
  revert w h b. induction os as [|o os IH]; intros w h b Hr Hb.
  - simpl in Hr. by simplify_eq.
  - apply run_cons in Hr as (r & w1 & h1 & He & Hr & ->). simpl.
    eapply IH; [done |]. by eapply exec_live.
Qed.

(** X5.  After any program on a new World, an entity is Alive exactly when
    the last call of the history that concerns it, a [create_entity] that
    returned its ID or a [destroy_entity] of it, is a [create_entity]. *)
Theorem alive_iff_history os h w e :
  run os newWorld = Some (h, w) →
  alive w !! N.to_nat e = Some true ↔ last_live e h = true.
Proof.
  intros Hr. eapply run_live; [done |]. simpl. by rewrite lookup_nil.
Qed.





(** ** [query] *)




Lemma scan_dead tids es w :
  (∀ e, e ∈ es → alive w !! e ≠ Some true) → scan w tids es = Some [].
Proof.
  induction es as [|e es IH]; intros Hd; [done |]. simpl.
  rewrite IH by (intros; apply Hd; by right).
  unfold visit. pose proof (Hd e ltac:(by left)) as He.
  by destruct (alive w !! e) as [[|]|].
Qed.

(** X8.  When some type of [Ts] has never been attached by a successful
    [add_component], [query<Ts...>] is defined exactly when no index below the
    entity counter is Alive (an empty World, or every entity destroyed), and
    it then makes no call; with one Alive entity in that range it dereferences
    the null pool. *)
Theorem query_unadded_type os h w Ts T :
  run os newWorld = Some (h, w) →
  T ∈ Ts → ¬ added T h →
  (is_Some (query Ts w) ↔
   ∀ e, (e < nextEntity w)%N → alive w !! N.to_nat e ≠ Some true) ∧
  (∀ calls w', query Ts w = Some (calls, w') → calls = []).
Proof.
  intros Hr Hin Hna. pose proof (reach_wf _ _ _ Hr) as Hwf.
  assert (Exists (λ T, pool_of T w = None) Ts) as HE.
  { apply Exists_exists. exists T. split; [done |].
    destruct (pool_of T w) eqn:Hp; [| done].
    destruct Hna. apply (reach_pool_of T _ _ _ Hr). eauto. }
  assert ((∀ e, (e < nextEntity w)%N → alive w !! N.to_nat e ≠ Some true) →
          ∃ w', query Ts w = Some ([], w')) as Hdead.
  { intros Hd. unfold query.
    pose proof (getTypeIds_alive Ts w) as Hal.
    pose proof (getTypeIds_nextEntity Ts w) as Hne.
    destruct (getTypeIds Ts w) as [tids w1]; simpl in *.
    rewrite scan_dead; [by eexists |].
    intros i Hi. apply elem_of_seq in Hi. rewrite Hal.
    specialize (Hd (N.of_nat i)). rewrite Nat2N.id in Hd. apply Hd. lia. }
  assert (is_Some (query Ts w) →
          ∀ e, (e < nextEntity w)%N → alive w !! N.to_nat e ≠ Some true)
    as Hdef.
  { intros [x Hq] e Hlt Ha.
    rewrite (query_undefined Ts w (N.to_nat e)) in Hq by (done || lia). done. }
  split.
  - split; [done |]. intros Hd. destruct (Hdead Hd) as [w' ->]. eauto.
  - intros calls w' Hq. destruct (Hdead (Hdef ltac:(eauto))) as [w'' Hq'].
    congruence.
Qed.

Lemma destroy_entity_components Ts k e w :
  components Ts k (destroy_entity e w) = components Ts k w.
Proof.
  induction Ts as [|T Ts IH]; simpl; [done |].
  by rewrite destroy_entity_component, IH.
Qed.

Lemma omap_cons_eq {A B} (f : A → option B) (x : A) (l : list A) :
  omap f (x :: l) =
    match f x with Some y => y :: omap f l | None => omap f l end.
Proof. done. Qed.

Lemma omap_drop_index {B} (f f' : nat → option (Entity * B)) (e : Entity)
    (es : list nat) :
  (∀ k, f' k = if decide (k = N.to_nat e) then None else f k) →
  (∀ k c, f k = Some c → c.1 = N.of_nat k) →
  omap f' es = filter (λ c, c.1 ≠ e) (omap f es).
Proof.
  intros Hf' Hf. induction es as [|k es IH]; [done |].
  rewrite !omap_cons_eq, Hf', IH. case_decide as Hk.
  - subst k. destruct (f (N.to_nat e)) as [c|] eqn:Hc; [| done].
    rewrite filter_cons_False; [done |].
    rewrite (Hf _ _ Hc), N2Nat.id. by intros [].
  - destruct (f k) as [c|] eqn:Hc; [| done].
    rewrite filter_cons_True; [done |].
    rewrite (Hf _ _ Hc). intros <-. by rewrite Nat2N.id in Hk.
Qed.

Lemma matching_destroy Ts e w :
  matching Ts (destroy_entity e w) = filter (λ c, c.1 ≠ e) (matching Ts w).
Proof.
  unfold matching. rewrite destroy_entity_nextEntity, destroy_entity_alive.
  apply omap_drop_index.
  - intros k. rewrite destroy_entity_components. case_decide as Hk.
    + subst k. pose proof (cleared_flag (alive w) (N.to_nat e)) as Hc.
      by destruct (<[N.to_nat e := false]> (alive w) !! N.to_nat e) as [[|]|].
    + by rewrite list_lookup_insert_ne.
  - intros k c. destruct (alive w !! k) as [[|]|]; try done.
    destruct (components Ts k w); simpl; [| done]. by intros [= <-].
Qed.

(** X9.  With every type of [Ts] attached earlier, a query after
    [destroy_entity(w, e)] makes the calls it made before, in the same order
    and with the same values, except the call for [e]: the query tests
    liveness, where [get_component] does not. *)
Theorem query_after_destroy os h w Ts e :
  run os newWorld = Some (h, w) →
  Forall (λ T, added T h) Ts →
  ∃ calls,
    query Ts w = Some (calls, w) ∧
    query Ts (destroy_entity e w) =
      Some (filter (λ c, c.1 ≠ e) calls, destroy_entity e w).
Proof.
  intros Hr HF. pose proof (reach_wf _ _ _ Hr) as Hwf.
  assert (Forall (λ T, is_Some (pool_of T w)) Ts) as HP.
  { eapply Forall_impl; [exact HF |]. intros T. apply (reach_pool_of T _ _ _ Hr). }
  exists (matching Ts w). split; [by apply query_spec |].
  rewrite <- matching_destroy. apply query_spec.
  - by apply destroy_entity_wf.
  - eapply Forall_impl; [exact HP |]. intros T.
    by rewrite destroy_entity_pool_of.
Qed.


(** ** The type registry *)

Lemma getTypeId_dense T w :
  size (typeMap w) = typeCounter w →
  size (typeMap (getTypeId T w).2) = typeCounter (getTypeId T w).2.
Proof.
  intros Hd. unfold getTypeId. destruct (typeMap w !! T) eqn:HT; simpl; [done |].
  rewrite map_size_insert_None by done. by rewrite Hd.
Qed.

Lemma getTypeIds_dense Ts w :
  size (typeMap w) = typeCounter w →
  size (typeMap (getTypeIds Ts w).2) = typeCounter (getTypeIds Ts w).2.
Proof.
  revert w. induction Ts as [|T Ts IH]; intros w Hd; simpl; [done |].
  pose proof (getTypeId_dense T w Hd) as H1.
  destruct (getTypeId T w) as [id w1]; simpl in *.
  specialize (IH w1 H1). by destruct (getTypeIds Ts w1).
Qed.

Lemma create_entity_typeCounter w :
  typeCounter (create_entity w).2 = typeCounter w.
Proof. unfold create_entity, ensureEntity; simpl. by destruct (_ <=? _). Qed.

Lemma exec_dense o w r w' :
  wf w → exec o w = Some (r, w') →
  size (typeMap w) = typeCounter w → size (typeMap w') = typeCounter w'.
Proof.
  intros Hwf He Hd. destruct o as [|e|T e comp|T e|T e|Ts].
  - apply exec_OCreate in He as [_ ->].
    by rewrite create_entity_typeMap, create_entity_typeCounter.
  - apply exec_ODestroy in He as [_ ->].
    by rewrite destroy_entity_typeMap, destroy_entity_typeCounter.
  - apply exec_OAdd in He as [(_ & _ & ->) | (_ & _ & ->)]; [done | | done].
    by apply (getTypeId_dense T).
  - apply exec_OGet in He as [_ ->]; [| done]. by apply getTypeId_dense.
  - apply exec_ORemove in He as [(_ & _ & ->) | (p & _ & _ & ->)]; [| | done];
      by apply (getTypeId_dense T).
  - apply exec_OQuery in He as (_ & _ & _ & ->). by apply getTypeIds_dense.
Qed.

Lemma run_dense os w h w' :
  wf w → run os w = Some (h, w') →
  size (typeMap w) = typeCounter w → size (typeMap w') = typeCounter w'.
Proof.
  revert w h. induction os as [|o os IH]; intros w h Hwf Hr Hd.
  - simpl in Hr. by simplify_eq.
  - apply run_cons in Hr as (r & w1 & h1 & He & Hr & ->).
    eapply IH; [by eapply exec_wf | done |]. by eapply exec_dense.
Qed.

Lemma exec_typeMap o w r w' T id :
  wf w → exec o w = Some (r, w') →
  typeMap w !! T = Some id → typeMap w' !! T = Some id.
Proof.
  intros Hwf He HT. destruct o as [|e|T0 e comp|T0 e|T0 e|Ts].
  - apply exec_OCreate in He as [_ ->]. by rewrite create_entity_typeMap.
  - apply exec_ODestroy in He as [_ ->]. by rewrite destroy_entity_typeMap.
  - apply exec_OAdd in He as [(_ & _ & ->) | (_ & _ & ->)]; [done | | done].
    rewrite store_at_typeMap. by apply getTypeId_typeMap.
  - apply exec_OGet in He as [_ ->]; [| done]. by apply getTypeId_typeMap.
  - apply exec_ORemove in He as [(_ & _ & ->) | (p & _ & _ & ->)]; [| | done];
      rewrite ?store_at_typeMap; by apply getTypeId_typeMap.
  - apply exec_OQuery in He as (_ & _ & _ & ->). by apply getTypeIds_typeMap.
Qed.

(** X10.  In every World a program reaches, the type counter, the length
    of the pool table and the number of registered types coincide; a
    registered type has a slot below that number, which [getTypeId] returns
    without changing the World and which every later call leaves in place; two
    types never share a slot; and a type seen for the first time gets the next
    free slot, the number of types registered so far. *)
Theorem type_slots os h w :
  run os newWorld = Some (h, w) →
  typeCounter w = size (typeMap w) ∧
  length (pools w) = size (typeMap w) ∧
  (∀ T id, typeMap w !! T = Some id →
           id < size (typeMap w) ∧ getTypeId T w = (id, w)) ∧
  (∀ T1 T2 id,
     typeMap w !! T1 = Some id → typeMap w !! T2 = Some id → T1 = T2) ∧
  (∀ T, typeMap w !! T = None →
        (getTypeId T w).1 = size (typeMap w) ∧
        typeMap (getTypeId T w).2 !! T = Some (size (typeMap w))) ∧
  (∀ T id o r w',
     typeMap w !! T = Some id → exec o w = Some (r, w') →
     typeMap w' !! T = Some id).
Proof.
  intros Hr. pose proof (reach_wf _ _ _ Hr) as Hwf.
  assert (size (typeMap w) = typeCounter w) as Hd
    by (by apply (run_dense os newWorld h w wf_newWorld Hr)).
  split_and!.
  - done.
  - rewrite Hd. apply (wf_slots _ Hwf).
  - intros T id HT. split; [| by apply getTypeId_known].
    rewrite Hd. by apply (wf_tm_lt _ Hwf T).
  - apply (wf_tm_inj _ Hwf).
  - intros T HT. rewrite (getTypeId_fresh _ _ Hwf HT); simpl.
    by rewrite lookup_insert_eq, Hd.
  - intros T id o r w' HT He. by eapply exec_typeMap.
Qed.

(** ** How writes compose *)

Lemma store_at_store_at T q q' w :
  store_at T q' (store_at T q w) = store_at T q' w.
Proof.
  unfold store_at at 1. rewrite getTypeId_store_at. simpl.
  unfold store_at, with_pools; simpl. by rewrite list_insert_insert_eq.
Qed.

Lemma store_at_getTypeId T q w :
  store_at T q (getTypeId T w).2 = store_at T q w.
Proof.
  unfold store_at at 1.
  by rewrite (getTypeId_known T _ _ (getTypeId_registers T w)).
Qed.

Lemma stored_after_add T e v v' w :
  wf w →
  stored T e v' (store_at T (stored T e v w) w) = stored T e v' w.
Proof.
  intros Hwf. unfold stored at 1.
  rewrite store_at_pool_of, decide_True by done. simpl.
  unfold stored. by rewrite !list_insert_insert_eq.
Qed.

Lemma stored_after_remove T e v' p w :
  wf w → pool_of T w = Some p →
  stored T e v' (store_at T (cleared e p) w) = stored T e v' w.
Proof.
  intros Hwf Hp. unfold stored.
  rewrite store_at_pool_of, decide_True by done. rewrite Hp. simpl.
  by rewrite list_insert_insert_eq.
Qed.

Lemma stored_after_getTypeId T e v' w :
  wf w → stored T e v' (getTypeId T w).2 = stored T e v' w.
Proof.
  intros Hwf. unfold stored.
  by rewrite getTypeId_pool_of, getTypeId_alive.
Qed.

(** X11.  On an Alive entity of a reachable World, [add_component<T>]
    forgets what was written for [(T, e)] just before: after an
    [add_component<T>(w, e, v)] or a [remove_component<T>(w, e)], adding [v']
    succeeds and leaves exactly the World that adding [v'] at once would have
    left. *)
Theorem add_component_absorbs os h w T e v v' :
  run os newWorld = Some (h, w) →
  alive w !! N.to_nat e = Some true →
  ∃ w1 w',
    add_component T e v w = Some (OK, w1) ∧
    add_component T e v' w = Some (OK, w') ∧
    add_component T e v' w1 = Some (OK, w') ∧
    add_component T e v' (remove_component T e w).2 = Some (OK, w').
Proof.
  intros Hr Ha. pose proof (reach_wf _ _ _ Hr) as Hwf.
  exists (store_at T (stored T (N.to_nat e) v w) w),
         (store_at T (stored T (N.to_nat e) v' w) w).
  split_and!.
  - by apply add_component_ok.
  - by apply add_component_ok.
  - rewrite add_component_ok.
    + by rewrite stored_after_add, store_at_store_at.
    + destruct (stored_lengths T (N.to_nat e) v w Hwf). by apply store_at_wf.
    + by rewrite store_at_alive.
  - rewrite remove_component_wf by done.
    destruct (pool_of T w) as [p|] eqn:Hp; simpl.
    + rewrite add_component_ok.
      * by rewrite stored_after_remove, store_at_store_at.
      * destruct (pool_of_wf T p w Hwf Hp),
          (cleared_lengths (N.to_nat e) p).
        apply store_at_wf; [done | |]; congruence.
      * by rewrite store_at_alive.
    + rewrite add_component_ok.
      * by rewrite stored_after_getTypeId, store_at_getTypeId.
      * by apply getTypeId_wf.
      * by rewrite getTypeId_alive.
Qed.

(** ** Absence of undefined behaviour *)

(** X12.  From every World a program reaches, each call of the public API
    returns without an out-of-bounds access or a null dereference, a query
    provided that each of its types has been attached by a successful
    [add_component] before. *)
Theorem calls_are_defined os h w o :
  run os newWorld = Some (h, w) →
  (∀ Ts, o = OQuery Ts → Forall (λ T, added T h) Ts) →
  is_Some (exec o w).
Proof.
  intros Hr Hq. apply exec_defined; [by eapply reach_wf |].
  intros Ts ->. eapply Forall_impl; [by apply Hq |].
  intros T. apply (reach_pool_of T _ _ _ Hr).
Qed.


(** ** The filling loop and the two read loops of the test suite *)

Lemma component_out_of_range T i w :
  wf w → length (alive w) ≤ i → component T i w = None.
Proof.
  intros Hwf Hi. unfold component.
  destruct (pool_of T w) as [p|] eqn:Hp; [| done].
  destruct (pool_of_wf T p w Hwf Hp) as [_ Hm].
  by rewrite lookup_ge_None_2 by lia.
Qed.

Lemma create_entity_alive_nowrap w :
  nextEntity w = N.of_nat (length (alive w)) →
  alive (create_entity w).2 = alive w ++ [true].
Proof.
  intros Hn. rewrite create_entity_alive, Hn, Nat2N.id.
  destruct (Nat.leb_spec (length (alive w)) (length (alive w))); [| lia].
  replace (S (length (alive w))) with (length (alive w) + 1) by lia.
  rewrite resize_add_eq by done.
  rewrite <- (Nat.add_0_r (length (alive w))) at 1.
  by rewrite insert_app_r.
Qed.

Lemma populate_spec T vs w c :
  wf w → counted c w → (c + N.of_nat (length vs) ≤ Entity_modulus)%N →
  ∃ w', populate T vs w = Some w' ∧ wf w' ∧
        counted (c + N.of_nat (length vs)) w' ∧
        alive w' = alive w ++ replicate (length vs) true ∧
        (∀ i, i < length (alive w) → component T i w' = component T i w) ∧
        (∀ i v, vs !! i = Some v →
                component T (length (alive w) + i) w' = Some v) ∧
        (is_Some (pool_of T w) ∨ vs ≠ [] → is_Some (pool_of T w')).
Proof.
  revert w c. induction vs as [|v vs IH]; intros w c Hwf Hc Hle.
  - exists w. simpl. rewrite N.add_0_r, app_nil_r.
    split_and!; try done. intros [? | ?]; done.
  - simpl length in Hle. simpl populate.
    assert (nextEntity w = N.of_nat (length (alive w))) as Hn
      by (apply (counted_nowrap c); [lia | done]).
    pose proof (create_entity_alive_nowrap w Hn) as Hal1.
    pose proof (create_entity_wf w Hwf) as Hwf1.
    pose proof (create_entity_counted c w Hc) as Hc1.
    pose proof (create_entity_component T) as Hcomp1.
    change (create_entity w) with (nextEntity w, (create_entity w).2).
    set (w1 := (create_entity w).2) in *. cbv beta iota.
    assert (alive w1 !! N.to_nat (nextEntity w) = Some true) as Ha1.
    { rewrite Hal1, Hn, Nat2N.id.
      by rewrite lookup_app_r, Nat.sub_diag by lia. }
    rewrite add_component_ok by done. simpl.
    set (w2 := store_at T (stored T (N.to_nat (nextEntity w)) v w1) w1).
    assert (wf w2) as Hwf2.
    { destruct (stored_lengths T (N.to_nat (nextEntity w)) v w1 Hwf1).
      by apply store_at_wf. }
    assert (alive w2 = alive w ++ [true]) as Hal2
      by (unfold w2; by rewrite store_at_alive).
    assert (counted (c + 1) w2) as Hc2.
    { eapply counted_same; [| | exact Hc1].
      - by rewrite Hal2, Hal1.
      - apply store_at_nextEntity. }
    destruct (IH w2 (c + 1)%N Hwf2 Hc2 ltac:(lia))
      as (w' & Hp & Hwf' & Hc' & Hal' & Hold & Hnew & Hpool).
    assert (∀ i, component T i w2 =
                 if decide (i = length (alive w)) then Some v
                 else component T i w) as Hcomp2.
    { intros i. unfold w2. rewrite component_add by done.
      rewrite Hn, Nat2N.id, <- (Hcomp1 i w Hwf).
      destruct (decide (i = length (alive w))).
      - by rewrite decide_True.
      - by rewrite decide_False by (intros [? ?]; done). }
    exists w'. split_and!.
    + done.
    + done.
    + replace (c + N.of_nat (S (length vs)))%N
        with (c + 1 + N.of_nat (length vs))%N by lia. done.
    + rewrite Hal', Hal2, <- (assoc_L (++)). done.
    + intros i Hi. rewrite Hold by (rewrite Hal2, length_app; simpl; lia).
      rewrite Hcomp2. by rewrite decide_False by lia.
    + intros [|i] x Hx; simpl in Hx.
      * simplify_eq. rewrite Nat.add_0_r.
        rewrite Hold by (rewrite Hal2, length_app; simpl; lia).
        rewrite Hcomp2. by rewrite decide_True.
      * specialize (Hnew i x Hx). rewrite Hal2, length_app in Hnew.
        simpl in Hnew.
        by replace (length (alive w) + S i) with (length (alive w) + 1 + i)
          by lia.
    + intros _. apply Hpool. left. unfold w2.
      rewrite store_at_pool_of by done. by rewrite decide_True.
Qed.

Lemma fetch_all_wf T idx w :
  wf w →
  fst <$> fetch_all T idx w =
    Some ((λ e, component T (N.to_nat e) w) <$> idx).
Proof.
  revert w. induction idx as [|e idx IH]; intros w Hwf; [done |].
  simpl. rewrite get_component_wf by done. simpl.
  specialize (IH (getTypeId T w).2 (getTypeId_wf T w Hwf)).
  destruct (fetch_all T idx (getTypeId T w).2) as [[ps w2]|]; simpl in *;
    [| done].
  simplify_eq. do 2 f_equal. apply list_fmap_ext.
  intros ? e' _. by apply getTypeId_component.
Qed.

Lemma omap_seq_imap {A B} (f : nat → option B) (g : nat → A → B)
    (l : list A) k :
  (∀ i v, l !! i = Some v → f (k + i) = Some (g (k + i) v)) →
  omap f (seq k (length l)) = imap (λ i, g (k + i)) l.
Proof.
  revert k. induction l as [|x l IH]; intros k Hf; [done |].
  simpl length. simpl seq. rewrite omap_cons_eq, imap_cons.
  pose proof (Hf 0 x eq_refl) as H0. rewrite Nat.add_0_r in H0.
  rewrite H0, Nat.add_0_r. f_equal.
  rewrite (IH (S k)).
  - apply imap_ext. intros i y _. simpl. f_equal. lia.
  - intros i v Hv. specialize (Hf (S i) v Hv).
    by replace (S k + i) with (k + S i) by lia.
Qed.

Lemma lookup_all_seq {A} (l : list A) :
  (λ i, l !! i) <$> seq 0 (length l) = Some <$> l.
Proof.
  apply list_eq. intros i. rewrite !list_lookup_fmap.
  destruct (decide (i < length l)) as [Hlt | Hge].
  - rewrite lookup_seq_lt by done. simpl.
    by destruct (lookup_lt_is_Some_2 l i Hlt) as [x ->].
  - rewrite lookup_seq_ge by lia. by rewrite lookup_ge_None_2 by lia.
Qed.

(** X13.  The test loops, for any list of fewer than [2^32] values.
    Filling a new World with one entity per value, each carrying its value as
    component [T], runs to completion; [query<T>] then calls the visitor once
    per entity in creation order, entity [i] with the [i]-th value;
    [get_component<T>] returns the [i]-th value for index [i] and a null
    pointer past the last entity; so fetching over any permutation of the
    entity indices yields a permutation of the values the query visits. *)
Theorem populate_then_read T vs :
  (N.of_nat (length vs) < Entity_modulus)%N →
  ∃ w,
    populate T vs newWorld = Some w ∧
    fst <$> query [T] w = Some (imap (λ i v, (N.of_nat i, [v])) vs) ∧
    (∀ idx, fst <$> fetch_all T idx w =
            Some ((λ e, vs !! N.to_nat e) <$> idx)) ∧
    (∀ idx, idx ≡ₚ N.of_nat <$> seq 0 (length vs) →
            ∃ ps w', fetch_all T idx w = Some (ps, w') ∧ ps ≡ₚ Some <$> vs).
Proof.
  intros Hlt.
  destruct (populate_spec T vs newWorld 0 wf_newWorld counted_newWorld
              ltac:(lia))
    as (w & Hp & Hwf & Hc & Hal & _ & Hnew & Hpool).
  simpl in Hal, Hnew. rewrite N.add_0_l in Hc.
  assert (∀ i, component T i w = vs !! i) as Hcomp.
  { intros i. destruct (vs !! i) as [v|] eqn:Hv; [by apply Hnew |].
    apply component_out_of_range; [done |].
    rewrite Hal, length_replicate. by apply lookup_ge_None. }
  assert (∀ idx, fst <$> fetch_all T idx w =
                 Some ((λ e, vs !! N.to_nat e) <$> idx)) as Hfetch.
  { intros idx. rewrite fetch_all_wf by done. f_equal.
    apply list_fmap_ext. intros ? e _. apply Hcomp. }
  exists w. split_and!; [done | | done |].
  - assert (matching [T] w = imap (λ i v, (N.of_nat i, [v])) vs) as Hm.
    { unfold matching.
      rewrite (counted_nowrap _ _ Hlt Hc), Nat2N.id, Hal, length_replicate.
      apply (omap_seq_imap _ (λ i v, (N.of_nat i, [v])) vs 0).
      intros i v Hv. simpl.
      rewrite lookup_replicate_2 by (by eapply lookup_lt_Some).
      by rewrite Hcomp, Hv. }
    destruct vs as [|v vs].
    + simpl in Hp. simplify_eq. unfold query; simpl.
      unfold getTypeId; simpl. by rewrite lookup_empty.
    + rewrite query_spec, Hm; [done | done |].
      constructor; [| done]. apply Hpool. by right.
  - intros idx Hperm. specialize (Hfetch idx).
    destruct (fetch_all T idx w) as [[ps w']|]; simpl in Hfetch; [| done].
    simplify_eq. eexists _, w'. split; [done |].
    rewrite Hperm, <- list_fmap_compose, <- lookup_all_seq.
    assert ((λ e : N, vs !! N.to_nat e) ∘ N.of_nat <$> seq 0 (length vs) =
            (λ i, vs !! i) <$> seq 0 (length vs)) as ->; [| done].
    apply list_fmap_ext. intros ? i _. simpl. by rewrite Nat2N.id.
Qed.


End Store.

(** * Concrete runs *)

(** Values are numbers, the value-initialised one is 0. *)
Abbreviation demo_ops := (two_entities_ops nat 5 9).
Abbreviation demo_hist := (two_entities_hist nat 5 9).
Abbreviation demo_world := (two_entities_world nat 0 5 9).
Abbreviation one_entity := (fresh_entity_world nat 0).

(** C1.  The code at the failing input: entity 0 is Alive and inside the
    scan range, type 7 has never been added, so its pool slot is null; the
    claim has the query visit no entity ([matching] is empty), the code
    dereferences the null pool. *)
Theorem query_unused_type_undefined :
  alive nat one_entity !! 0 = Some true ∧
  nextEntity nat one_entity = 1%N ∧
  pool_of nat 7 one_entity = None ∧
  matching nat [7%N] one_entity = [] ∧
  query nat [7%N] one_entity = None.
Proof. by vm_compute. Qed.

(** C2, counterexample.  On a world where type 7 has never been touched,
    a first [get_component], a first [remove_component] and a first [query]
    of type 7 each return normally and leave type 7 without a pool. *)
Lemma first_use_without_pool :
  typeMap nat one_entity !! 7%N = None ∧
  (∃ w1, get_component nat 7 0 one_entity = Some (None, w1) ∧
         typeMap nat w1 !! 7%N = Some 0 ∧ pool_of nat 7 w1 = None) ∧
  (∃ w1, remove_component nat 7 0 one_entity = (ERROR, w1) ∧
         typeMap nat w1 !! 7%N = Some 0 ∧ pool_of nat 7 w1 = None) ∧
  (∃ w1, query nat [7%N] (newWorld nat) = Some ([], w1) ∧
         typeMap nat w1 !! 7%N = Some 0 ∧ pool_of nat 7 w1 = None).
Proof.
  split; [by vm_compute |].
  split; [| split]; eexists; (split; [reflexivity | by vm_compute]).
Qed.

Lemma pool_exists_iff_added_witness :
  run nat 0 demo_ops (newWorld nat) = Some (demo_hist, demo_world) ∧
  (is_Some (pool_of nat 1 demo_world) ↔ added nat 1 demo_hist).
Proof.
  split; [reflexivity |].
  apply (pool_exists_iff_added nat 0 demo_ops demo_hist demo_world 1).
  reflexivity.
Defined.



(** C4, counterexample.  Type 7 has been used against the World, by a
    [get_component] that assigned its slot, and [remove_component] of type 7
    still returns ERROR. *)
Lemma remove_error_for_used_type :
  ∃ h w,
    run nat 0 [OCreate nat; OGet nat 7 0] (newWorld nat) = Some (h, w) ∧
    (OGet nat 7 0, RGet nat None) ∈ h ∧
    typeMap nat w !! 7%N = Some 0 ∧
    (remove_component nat 7 0 w).1 = ERROR.
Proof.
  do 2 eexists. split; [reflexivity |].
  split; [| by vm_compute]. apply elem_of_cons. right. apply elem_of_cons. by left.
Qed.

Lemma remove_component_result_witness :
  run nat 0 demo_ops (newWorld nat) = Some (demo_hist, demo_world) ∧
  (remove_component nat 1 0 demo_world).1 = OK ∧
  pool_of nat 1 (remove_component nat 1 0 demo_world).2 =
    Some (mkPool nat [5; 0] [false; false]) ∧
  (remove_component nat 7 0 demo_world).1 = ERROR.
Proof.
  split; [reflexivity |].
  pose proof (remove_component_result nat 0 demo_ops demo_hist demo_world 1 0
                eq_refl) as (_ & Hok & Hpool & _).
  pose proof (remove_component_result nat 0 demo_ops demo_hist demo_world 7 0
                eq_refl) as (Herr & _).
  split_and!.
  - apply Hok. exists 0%N, 5%nat. unfold two_entities_hist. rewrite !elem_of_cons.
    right; right; by left.
  - apply (Hpool (mkPool nat [5; 0] [true; false])). reflexivity.
  - apply Herr. intros (e & c & Hin). unfold two_entities_hist in Hin.
    repeat (apply elem_of_cons in Hin as [Hin | Hin]; [discriminate Hin |]).
    by apply elem_of_nil in Hin.
Defined.



Lemma destroy_entity_frame_witness :
  pools nat (destroy_entity nat 0 demo_world) = pools nat demo_world ∧
  alive nat (destroy_entity nat 0 demo_world) = [false; true] ∧
  get_component nat 1 0 (destroy_entity nat 0 demo_world) =
    Some (Some 5, destroy_entity nat 0 demo_world).
Proof.
  split_and!.
  - apply (destroy_entity_frame nat 0 demo_world).
  - reflexivity.
  - destruct (destroy_entity_frame nat 0 demo_world)
      as (_ & _ & _ & _ & _ & _ & Hget).
    rewrite Hget. reflexivity.
Defined.

Lemma pool_lengths_witness :
  run nat 0 demo_ops (newWorld nat) = Some (demo_hist, demo_world) ∧
  (∀ i p, pools nat demo_world !! i = Some (Some p) →
          length (data nat p) = length (mask nat p) ∧
          length (mask nat p) = 2) ∧
  creates nat demo_ops = 2%N ∧
  grows nat demo_world (create_entity nat 0 demo_world).2.
Proof.
  split; [reflexivity |].
  destruct (pool_lengths nat 0 demo_ops demo_hist demo_world eq_refl)
    as (Hlen & _ & Hgrow).
  split_and!.
  - exact Hlen.
  - reflexivity.
  - apply (Hgrow (OCreate nat) (RCreate nat 2)). reflexivity.
Defined.

Lemma query_defined_witness :
  run nat 0 demo_ops (newWorld nat) = Some (demo_hist, demo_world) ∧
  Forall (λ T, added nat T demo_hist) [1%N; 2%N] ∧
  ∃ calls, query nat [1%N; 2%N] demo_world = Some (calls, demo_world).
Proof.
  split; [reflexivity |].
  assert (Forall (λ T, added nat T demo_hist) [1%N; 2%N]) as HF.
  { repeat constructor.
    - exists 0%N, 5%nat. unfold two_entities_hist. rewrite !elem_of_cons.
      right; right; by left.
    - exists 1%N, 9%nat. unfold two_entities_hist. rewrite !elem_of_cons.
      right; right; right; by left. }
  split; [exact HF |].
  apply (query_defined nat 0 demo_ops demo_hist demo_world [1%N; 2%N] eq_refl HF).
Defined.

Lemma add_component_frame_witness :
  run nat 0 demo_ops (newWorld nat) = Some (demo_hist, demo_world) ∧
  add_component nat 0 1 1 7 demo_world =
    Some (OK, store_at nat 1 (stored nat 0 1 1 7 demo_world) demo_world) ∧
  fst <$> get_component nat 1 0
            (store_at nat 1 (stored nat 0 1 1 7 demo_world) demo_world) =
  fst <$> get_component nat 1 0 demo_world.
Proof.
  split; [reflexivity |]. split; [reflexivity |].
  destruct (add_component_frame nat 0 demo_ops demo_hist demo_world 1 1 7
              (store_at nat 1 (stored nat 0 1 1 7 demo_world) demo_world)
              eq_refl eq_refl) as (_ & _ & Hget).
  apply Hget. discriminate.
Defined.

(** * Concrete runs for the further properties *)

Lemma ensureSize_extends_witness :
  length (data nat (mkPool nat [5] [true])) =
    length (mask nat (mkPool nat [5] [true])) ∧
  length (data nat (ensureSize nat 0 3 (mkPool nat [5] [true]))) = 3 ∧
  data nat (ensureSize nat 0 3 (mkPool nat [5] [true])) !! 0 = Some 5 ∧
  mask nat (ensureSize nat 0 3 (mkPool nat [5] [true])) !! 2 = Some false ∧
  ensureSize nat 0 2 (ensureSize nat 0 3 (mkPool nat [5] [true])) =
    ensureSize nat 0 3 (mkPool nat [5] [true]).
Proof.
  split; [reflexivity |].
  destruct (ensureSize_extends nat 0 3 (mkPool nat [5] [true]) eq_refl)
    as (Hd & _ & Hold & Hnew & Htwice).
  split_and!.
  - exact Hd.
  - apply (Hold 0). simpl. lia.
  - apply (Hnew 2). simpl. lia.
  - apply (Htwice 2).
Defined.

Lemma destroy_entity_algebra_witness :
  alive nat (destroy_entity nat 1 demo_world) !! N.to_nat 1 ≠ Some true ∧
  destroy_entity nat 1 (destroy_entity nat 1 demo_world) =
    destroy_entity nat 1 demo_world ∧
  destroy_entity nat 1 (destroy_entity nat 0 demo_world) =
    destroy_entity nat 0 (destroy_entity nat 1 demo_world) ∧
  (length (alive nat demo_world) ≤ N.to_nat 5 ∧
   destroy_entity nat 5 demo_world = demo_world).
Proof.
  destruct (destroy_entity_algebra nat 1 0 demo_world)
    as (Hdead & Hidem & Hcomm & _).
  destruct (destroy_entity_algebra nat 5 0 demo_world)
    as (_ & _ & _ & Hout & _).
  split_and!; [exact Hdead | exact Hidem | exact Hcomm | simpl; lia |].
  apply Hout. simpl. lia.
Defined.

Lemma create_entity_sequential_witness :
  run nat 0 demo_ops (newWorld nat) = Some (demo_hist, demo_world) ∧
  (creates nat demo_ops < Entity_modulus)%N ∧
  (create_entity nat 0 demo_world).1 = 2%N ∧
  alive nat (create_entity nat 0 demo_world).2 !! 2 = Some true.
Proof.
  split; [reflexivity |]. split; [reflexivity |].
  destruct (create_entity_sequential nat 0 demo_ops demo_hist demo_world eq_refl)
    as (_ & Hid & Halive & _).
  split; [by apply Hid | exact Halive].
Defined.

Lemma create_entity_components_witness :
  run nat 0 demo_ops (newWorld nat) = Some (demo_hist, demo_world) ∧
  (creates nat demo_ops < Entity_modulus)%N ∧
  fst <$> get_component nat 1 0 (create_entity nat 0 demo_world).2 =
    fst <$> get_component nat 1 0 demo_world ∧
  fst <$> get_component nat 1 (create_entity nat 0 demo_world).1
            (create_entity nat 0 demo_world).2 = Some None.
Proof.
  split; [reflexivity |]. split; [reflexivity |].
  destruct (create_entity_components nat 0 demo_ops demo_hist demo_world eq_refl)
    as (Hsame & Hnew).
  split; [apply Hsame | by apply Hnew].
Defined.

Lemma alive_iff_history_witness :
  run nat 0 [OCreate nat; OCreate nat; ODestroy nat 0] (newWorld nat) =
    Some ([(OCreate nat, RCreate nat 0); (OCreate nat, RCreate nat 1);
           (ODestroy nat 0, RDestroy nat)],
          mkWorld nat [false; true] 2 [] ∅ 0) ∧
  (alive nat (mkWorld nat [false; true] 2 [] ∅ 0) !! N.to_nat 0 = Some true ↔
   last_live nat 0 [(OCreate nat, RCreate nat 0); (OCreate nat, RCreate nat 1);
                    (ODestroy nat 0, RDestroy nat)] = true).
Proof.
  split; [reflexivity |].
  apply (alive_iff_history nat 0 [OCreate nat; OCreate nat; ODestroy nat 0]).
  reflexivity.
Defined.


Lemma demo_added : Forall (λ T, added nat T demo_hist) [1%N; 2%N].
Proof.
  repeat constructor.
  - exists 0%N, 5%nat. unfold two_entities_hist. rewrite !elem_of_cons.
    right; right; by left.
  - exists 1%N, 9%nat. unfold two_entities_hist. rewrite !elem_of_cons.
    right; right; right; by left.
Defined.

Lemma demo_not_added : ¬ added nat 7 demo_hist.
Proof.
  intros (e & c & Hin). unfold two_entities_hist in Hin.
  repeat (apply elem_of_cons in Hin as [Hin | Hin]; [discriminate Hin |]).
  by apply elem_of_nil in Hin.
Defined.


Lemma query_unadded_type_witness :
  run nat 0 demo_ops (newWorld nat) = Some (demo_hist, demo_world) ∧
  7%N ∈ [7%N] ∧ ¬ added nat 7 demo_hist ∧
  (is_Some (query nat [7%N] demo_world) ↔
   ∀ e, (e < nextEntity nat demo_world)%N →
        alive nat demo_world !! N.to_nat e ≠ Some true).
Proof.
  split; [reflexivity |].
  split; [apply elem_of_cons; by left |].
  split; [exact demo_not_added |].
  apply (query_unadded_type nat 0 demo_ops demo_hist demo_world [7%N] 7
           eq_refl); [apply elem_of_cons; by left | exact demo_not_added].
Defined.

Lemma query_after_destroy_witness :
  run nat 0 demo_ops (newWorld nat) = Some (demo_hist, demo_world) ∧
  Forall (λ T, added nat T demo_hist) [1%N] ∧
  ∃ calls,
    query nat [1%N] demo_world = Some (calls, demo_world) ∧
    query nat [1%N] (destroy_entity nat 0 demo_world) =
      Some (filter (λ c, c.1 ≠ 0%N) calls, destroy_entity nat 0 demo_world).
Proof.
  split; [reflexivity |].
  assert (Forall (λ T, added nat T demo_hist) [1%N]) as HF.
  { pose proof demo_added as H. inversion_clear H as [|? ? H1 _].
    by constructor. }
  split; [exact HF |].
  apply (query_after_destroy nat 0 demo_ops demo_hist demo_world [1%N] 0
           eq_refl HF).
Defined.

Lemma type_slots_witness :
  run nat 0 demo_ops (newWorld nat) = Some (demo_hist, demo_world) ∧
  typeCounter nat demo_world = size (typeMap nat demo_world) ∧
  length (pools nat demo_world) = size (typeMap nat demo_world) ∧
  getTypeId nat 2 demo_world = (1, demo_world) ∧
  (getTypeId nat 7 demo_world).1 = size (typeMap nat demo_world).
Proof.
  split; [reflexivity |].
  destruct (type_slots nat 0 demo_ops demo_hist demo_world eq_refl)
    as (Hc & Hp & Hknown & _ & Hfresh & _).
  split_and!; [exact Hc | exact Hp | | ].
  - by apply (Hknown 2%N 1).
  - by apply (Hfresh 7%N).
Defined.

Lemma add_component_absorbs_witness :
  run nat 0 demo_ops (newWorld nat) = Some (demo_hist, demo_world) ∧
  alive nat demo_world !! N.to_nat 1 = Some true ∧
  ∃ w1 w',
    add_component nat 0 1 1 7 demo_world = Some (OK, w1) ∧
    add_component nat 0 1 1 8 demo_world = Some (OK, w') ∧
    add_component nat 0 1 1 8 w1 = Some (OK, w') ∧
    add_component nat 0 1 1 8 (remove_component nat 1 1 demo_world).2 =
      Some (OK, w').
Proof.
  split; [reflexivity |]. split; [reflexivity |].
  apply (add_component_absorbs nat 0 demo_ops demo_hist demo_world 1 1 7 8
           eq_refl eq_refl).
Defined.

Lemma calls_are_defined_witness :
  run nat 0 demo_ops (newWorld nat) = Some (demo_hist, demo_world) ∧
  is_Some (exec nat 0 (OQuery nat [1%N; 2%N]) demo_world) ∧
  is_Some (exec nat 0 (OAdd nat 7 5 3) demo_world).
Proof.
  split; [reflexivity |]. split.
  - apply (calls_are_defined nat 0 demo_ops demo_hist demo_world
             (OQuery nat [1%N; 2%N]) eq_refl).
    intros Ts [= <-]. exact demo_added.
  - apply (calls_are_defined nat 0 demo_ops demo_hist demo_world
             (OAdd nat 7 5 3) eq_refl).
    intros Ts Heq. discriminate Heq.
Defined.

Lemma populate_then_read_witness :
  (N.of_nat (length [5; 6; 7]) < Entity_modulus)%N ∧
  ∃ w,
    populate nat 0 1 [5; 6; 7] (newWorld nat) = Some w ∧
    fst <$> query nat [1%N] w =
      Some [(0%N, [5]); (1%N, [6]); (2%N, [7])] ∧
    fst <$> fetch_all nat 1 [2%N; 0%N; 3%N] w =
      Some [Some 7; Some 5; None].
Proof.
  split; [reflexivity |].
  destruct (populate_then_read nat 0 1 [5; 6; 7] eq_refl)
    as (w & Hp & Hq & Hf & _).
  exists w. split_and!; [exact Hp | exact Hq | apply (Hf [2%N; 0%N; 3%N])].
Defined.


End ec.
